(** * Visio-Toolkit: corner detection, patch descriptors and matching

    A shallow embedding of [feature_extraction.py] and the properties of
    its four pipeline stages.

    Conventions of the embedding.
    - A 2-D [numpy] array is a list of rows ([array2]); an array built by
      [numpy] or [cv2] is rectangular, which the theorems state as a
      hypothesis ([rect]).
    - 8-bit samples and all indices are [Z]; a [float64] value is a real
      number ([R]): rounding is not modelled, the special values that the
      code itself produces or tests ([inf], [nan]) are ([xreal]).
    - An exception raised by Python, [numpy] or [cv2] ends the call: the
      functions return a [result].
    - The functions of [cv2] and [numpy.linalg] are not part of the
      repository; the embedding takes them as an interface ([Cv2],
      [LinAlg]) with the laws the proofs use ([Cv2Laws], [LinAlgLaws]). *)

From Stdlib Require Import String.
From Stdlib Require Import ZArith List Bool Lia Reals Lra Psatz.
From Stdlib Require Import Sorting.Sorted.
Import ListNotations.

#[local] Open Scope Z_scope.

(** ** Exceptions *)

Inductive exn : Type :=
| cv2_error      (* raised inside OpenCV *)
| IndexError     (* integer index out of range *)
| ValueError.    (* reduction of an empty array, shapes that do not broadcast *)

Inductive result (A : Type) : Type :=
| Ok (a : A)
| Raise (e : exn).

Arguments Ok {A} a.
Arguments Raise {A} e.

Definition bind {A B : Type} (c : result A) (k : A -> result B) : result B :=
  match c with
  | Ok a => k a
  | Raise e => Raise e
  end.

Declare Scope result_scope.
Delimit Scope result_scope with result.
Notation "x <- c ;; k" := (bind c (fun x => k))
  (at level 61, c at next level, right associativity) : result_scope.
#[local] Open Scope result_scope.

(** A [for] loop whose body may raise, threading the loop state. *)
Fixpoint for_each {A S : Type} (xs : list A) (body : S -> A -> result S)
  (s : S) : result S :=
  match xs with
  | [] => Ok s
  | x :: xs' => s' <- body s x ;; for_each xs' body s'
  end.

(** ** Python and numpy indexing *)

Module Py.

(** [range(a, b)] *)
Definition range (a b : Z) : list Z :=
  map (fun i => a + Z.of_nat i) (seq 0 (Z.to_nat (b - a))).

(** The position a slice bound [i] denotes in a sequence of length [n]:
    a negative bound counts from the end, and the result is clipped to
    [0..n]. *)
Definition clip (n i : Z) : Z :=
  if i <? 0 then Z.max (i + n) 0 else Z.min i n.

(** [len(l[start:stop])] for a sequence of length [n]. *)
Definition slice_len (n start stop : Z) : Z :=
  Z.max 0 (clip n stop - clip n start).

(** [l[start:stop]] *)
Definition slice {A : Type} (l : list A) (start stop : Z) : list A :=
  let n := Z.of_nat (length l) in
  firstn (Z.to_nat (slice_len n start stop))
         (skipn (Z.to_nat (clip n start)) l).

(** [l[i]] for an integer [i]: a negative index counts from the end,
    an index outside [-n..n-1] raises [IndexError]. *)
Definition index {A : Type} (l : list A) (i : Z) : result A :=
  let n := Z.of_nat (length l) in
  if (i <? - n) || (n <=? i) then Raise IndexError
  else match nth_error l (Z.to_nat (if i <? 0 then i + n else i)) with
       | Some a => Ok a
       | None => Raise IndexError
       end.

End Py.

(** ** Arrays *)

Definition array2 (A : Type) : Type := list (list A).

(** [a.shape[0]] and [a.shape[1]] of a 2-D array with at least one row. *)
Definition shape0 {A : Type} (a : array2 A) : Z := Z.of_nat (length a).

Definition shape1 {A : Type} (a : array2 A) : Z :=
  match a with
  | [] => 0
  | r :: _ => Z.of_nat (length r)
  end.

(** Every row of [a] has [w] entries. *)
Definition rect {A : Type} (w : Z) (a : array2 A) : Prop :=
  Forall (fun r => Z.of_nat (length r) = w) a.

(** [a[y, x]] *)
Definition get2 {A : Type} (a : array2 A) (y x : Z) : result A :=
  r <- Py.index a y ;; Py.index r x.

(** [a[y0:y1, x0:x1]] *)
Definition slice2 {A : Type} (a : array2 A) (y0 y1 x0 x1 : Z) : array2 A :=
  map (fun r => Py.slice r x0 x1) (Py.slice a y0 y1).

(** [a.flatten()] *)
Definition flatten {A : Type} (a : array2 A) : list A := concat a.

(** The entry of row [y], column [x], for [0 <= y < H] and [0 <= x < W];
    [d] elsewhere.  Used in statements only. *)
Definition entry {A : Type} (d : A) (a : array2 A) (y x : Z) : A :=
  nth (Z.to_nat x) (nth (Z.to_nat y) a []) d.

(** Row-major listing of the entries of [a] with row in [y0, y1) and
    column in [x0, x1).  Used in statements only. *)
Definition entries {A : Type} (d : A) (a : array2 A) (y0 y1 x0 x1 : Z) : list A :=
  flat_map (fun r => map (fun k => entry d a r k) (Py.range x0 x1)) (Py.range y0 y1).

(** ** Images and the colour conversion *)

(** An image is a 2-D array of samples (one channel) or a 3-D array
    [H x W x C], each pixel the list of its [C] channel samples. *)
Inductive image : Type :=
| Img2D (px : array2 Z)
| Img3D (px : array2 (list Z)).

(** The number of channels OpenCV sees. *)
Definition channels (img : image) : Z :=
  match img with
  | Img2D _ => 1
  | Img3D px =>
      match px with
      | (p :: _) :: _ => Z.of_nat (length p)
      | _ => 0
      end
  end.

Definition is_empty (img : image) : bool :=
  match img with
  | Img2D px => (shape0 px =? 0) || (shape1 px =? 0)
  | Img3D px => (shape0 px =? 0) || (shape1 px =? 0)
  end.

(** An [H x W x 3] array, [H] and [W] positive. *)
Definition bgr_image (H W : Z) (img : image) : Prop :=
  match img with
  | Img2D _ => False
  | Img3D px =>
      0 < H /\ 0 < W /\ shape0 px = H /\ rect W px /\
      Forall (Forall (fun p => length p = 3%nat)) px
  end.

(** ** The external collaborators *)

(** What the program calls in OpenCV.
    - [bgr2gray b g r]: the sample [cv2.COLOR_BGR2GRAY] gives a pixel;
    - [Sobel a dx dy]: [cv2.Sobel(a, cv2.CV_64F, dx, dy, ksize=3)];
    - [boxFilter a w]: [cv2.boxFilter(a, -1, (w, w))]. *)
Class Cv2 : Type := {
  bgr2gray : Z -> Z -> Z -> Z;
  Sobel : array2 Z -> nat -> nat -> array2 R;
  boxFilter : array2 R -> Z -> result (array2 R)
}.

(** [numpy.linalg.eig] on the 2 x 2 matrix [[a, b], [c, d]]: its two
    eigenvalues, in the order the library returns them. *)
Class LinAlg : Type := {
  eig : R * R * R * R -> R * R
}.

Section ColourConversion.
Context {cv : Cv2}.

Definition gray_pixel (p : list Z) : Z :=
  bgr2gray (nth 0 p 0) (nth 1 p 0) (nth 2 p 0).

Definition to_gray (px : array2 (list Z)) : array2 Z :=
  map (map gray_pixel) px.

(** [cv2.cvtColor(img, cv2.COLOR_BGR2GRAY)]: OpenCV rejects an empty
    image and an image that has neither three nor four channels. *)
Definition cvtColor_BGR2GRAY (img : image) : result (array2 Z) :=
  if is_empty img then Raise cv2_error
  else if negb ((channels img =? 3) || (channels img =? 4)) then Raise cv2_error
  else match img with
       | Img2D _ => Raise cv2_error
       | Img3D px => Ok (to_gray px)
       end.

End ColourConversion.

(** ** Descriptor extraction *)

Section DescriptorExtractor.
Context {cv : Cv2}.

(** [patch.shape] of [patch = a[y0:y1, x0:x1]]. *)
Definition slice2_shape {A : Type} (a : array2 A) (y0 y1 x0 x1 : Z) : Z * Z :=
  (Py.slice_len (shape0 a) y0 y1, Py.slice_len (shape1 a) x0 x1).

Definition shape_eqb (s t : Z * Z) : bool :=
  (fst s =? fst t) && (snd s =? snd t).

(** One turn of the loop over [corners]. *)
Definition extract_step (img_gray : array2 Z) (patch_size : Z)
  (descriptors : list (list Z)) (corner : Z * Z) : list (list Z) :=
  let '(x, y) := corner in
  let patch_x_min := Z.max 0 (x - patch_size / 2) in
  let patch_x_max := Z.min (shape1 img_gray) (x + patch_size / 2) in
  let patch_y_min := Z.max 0 (y - patch_size / 2) in
  let patch_y_max := Z.min (shape0 img_gray) (y + patch_size / 2) in
  let patch := slice2 img_gray patch_y_min patch_y_max patch_x_min patch_x_max in
  let patch_shape :=
    slice2_shape img_gray patch_y_min patch_y_max patch_x_min patch_x_max in
  if negb (shape_eqb patch_shape (patch_size, patch_size)) then descriptors
  else descriptors ++ [flatten patch].

Definition extract_feature_descriptors (img : image) (corners : list (Z * Z))
  (patch_size : Z) : result (list (list Z)) :=
  img_gray <- cvtColor_BGR2GRAY img ;;
  Ok (fold_left (extract_step img_gray patch_size) corners []).

End DescriptorExtractor.

(** *** The window of a corner, as the specification words it *)

Definition window_lo (c p : Z) : Z := Z.max 0 (c - p / 2).
Definition window_hi (n c p : Z) : Z := Z.min n (c + p / 2).

(** Number of indices in the half-open interval [lo, hi). *)
Definition span (lo hi : Z) : Z := Z.max 0 (hi - lo).

(** Row-major listing of the samples of [g] in the window of [c]. *)
Definition window_samples (g : array2 Z) (H W p : Z) (c : Z * Z) : list Z :=
  entries 0 g (window_lo (snd c) p) (window_hi H (snd c) p)
              (window_lo (fst c) p) (window_hi W (fst c) p).

(** The patch of corner [(x, y)] is exactly [p x p]. *)
Definition unclipped (H W p : Z) (c : Z * Z) : bool :=
  (span (window_lo (snd c) p) (window_hi H (snd c) p) =? p) &&
  (span (window_lo (fst c) p) (window_hi W (fst c) p) =? p).

(** ** Corner detection *)

(** Element-wise binary operation on two arrays of one shape. *)
Definition zip2 {A B C : Type} (f : A -> B -> C) (a : array2 A) (b : array2 B)
  : array2 C :=
  map (fun rs => map (fun uv => f (fst uv) (snd uv)) (combine (fst rs) (snd rs)))
      (combine a b).

(** [l.reshape(H, W)] of a flat array of [H * W] entries. *)
Fixpoint reshape {A : Type} (H W : nat) (l : list A) : array2 A :=
  match H with
  | O => []
  | S H' => firstn W l :: reshape H' W (skipn W l)
  end.

(** [np.max(a)]; [numpy] raises [ValueError] on an array without entries. *)
Definition np_max (a : array2 R) : result R :=
  match flatten a with
  | [] => Raise ValueError
  | v :: vs => Ok (fold_left Rmax vs v)
  end.

(** [enumerate(l)] *)
Definition enumerate {A : Type} (l : list A) : list (Z * A) :=
  combine (Py.range 0 (Z.of_nat (length l))) l.

(** [np.argwhere(mask)]: the [(row, column)] index pairs of the true
    entries, in row-major order. *)
Definition argwhere (mask : array2 bool) : list (Z * Z) :=
  flat_map
    (fun ir => map (fun jb => (fst ir, fst jb))
                   (filter (fun jb => snd jb) (enumerate (snd ir))))
    (enumerate mask).

Section Detectors.
Context {cv : Cv2} {la : LinAlg}.

(** Lines 20-36: the response map [lambda_minus] of a grayscale image. *)
Definition lambda_minus_response (img : array2 Z) : array2 R :=
  let Ix := Sobel img 1 0 in
  let Iy := Sobel img 0 1 in
  let Ix2 := zip2 Rmult Ix Ix in
  let Iy2 := zip2 Rmult Iy Iy in
  let Ixy := zip2 Rmult Ix Iy in
  (* np.stack((Ix2, Ixy, Ixy, Iy2), axis=-1).reshape((-1, 2, 2)) *)
  let M := flatten
             (zip2 (fun ab cd => (fst ab, snd ab, fst cd, snd cd))
                   (zip2 pair Ix2 Ixy) (zip2 pair Ixy Iy2)) in
  let eigenvals := map eig M in
  let eigenvals :=
    reshape (Z.to_nat (shape0 img)) (Z.to_nat (shape1 img)) eigenvals in
  map (map (fun e => Rmin (fst e) (snd e))) eigenvals.

(** The body of the loop over [x] (lines 47-53). *)
Definition nms_step (lambda_minus : array2 R) (window_size : Z) (threshold : R)
  (y : Z) (corners : list (Z * Z)) (x : Z) : result (list (Z * Z)) :=
  v <- get2 lambda_minus y x ;;
  if Rgt_dec v threshold then
    let window := slice2 lambda_minus
                    (y - window_size) (y + window_size + 1)
                    (x - window_size) (x + window_size + 1) in
    m <- np_max window ;;
    if Req_dec_T v m then Ok (corners ++ [(x, y)]) else Ok corners
  else Ok corners.

(** Lines 38-55: thresholding and non-maximum suppression of a
    response map. *)
Definition lambda_minus_select (lambda_minus : array2 R) (window_size : Z)
  (th_percentage : R) : result (list (Z * Z)) :=
  gmax <- np_max lambda_minus ;;
  let threshold := (th_percentage * gmax)%R in
  for_each (Py.range window_size (shape0 lambda_minus - window_size))
    (fun corners y =>
       for_each (Py.range window_size (shape1 lambda_minus - window_size))
         (nms_step lambda_minus window_size threshold y) corners)
    [].

Definition lambda_minus_corner_detection (img : image) (window_size : Z)
  (th_percentage : R) : result (list (Z * Z)) :=
  img <- cvtColor_BGR2GRAY img ;;
  lambda_minus_select (lambda_minus_response img) window_size th_percentage.

(** Lines 60-71: the Harris response [R] of a grayscale image. *)
Definition harris_response (img : array2 Z) (window_size : Z) (k : R)
  : result (array2 R) :=
  let Ix := Sobel img 1 0 in
  let Iy := Sobel img 0 1 in
  let Ix2 := map (map (fun v => v ^ 2)%R) Ix in
  let Iy2 := map (map (fun v => v ^ 2)%R) Iy in
  let Ixy := zip2 Rmult Ix Iy in
  Sx2 <- boxFilter Ix2 window_size ;;
  Sy2 <- boxFilter Iy2 window_size ;;
  Sxy <- boxFilter Ixy window_size ;;
  Ok (zip2 Rminus
        (zip2 Rminus (zip2 Rmult Sx2 Sy2) (map (map (fun v => v ^ 2)%R) Sxy))
        (map (map (fun v => k * v ^ 2)%R) (zip2 Rplus Sx2 Sy2))).

(** Lines 73-77: thresholding of the response map [R] (here [R_map]). *)
Definition harris_select (R_map : array2 R) (th_percentage : R)
  : result (list (Z * Z)) :=
  gmax <- np_max R_map ;;
  let threshold := (th_percentage * gmax)%R in
  Ok (argwhere
        (map (map (fun v => if Rgt_dec v threshold then true else false)) R_map)).

Definition harris_corner_detection (img : image) (window_size : Z) (k : R)
  (th_percentage : R) : result (list (Z * Z)) :=
  img <- cvtColor_BGR2GRAY img ;;
  R_map <- harris_response img window_size k ;;
  harris_select R_map th_percentage.

End Detectors.

(** ** Descriptor matching *)

(** A [float64] score: a real number or one of the special values. *)
Inductive xreal : Type :=
| Fin (r : R)
| PInf
| NInf
| NaN.

(** [a < b] on scores; any comparison with [nan] is false. *)
Definition xlt (a b : xreal) : bool :=
  match a, b with
  | NaN, _ | _, NaN => false
  | _, NInf => false
  | PInf, _ => false
  | NInf, _ => true
  | Fin _, PInf => true
  | Fin x, Fin y => if Rlt_dec x y then true else false
  end.

(** [a > b] *)
Definition xgt (a b : xreal) : bool := xlt b a.

(** [c / n] as [numpy] divides two [float64] scalars: a zero divisor
    gives [nan] or an infinity (and a warning), never an exception. *)
Definition xdiv (c n : R) : xreal :=
  if Req_dec_T n 0 then
    if Req_dec_T c 0 then NaN
    else if Rlt_dec 0 c then PInf else NInf
  else Fin (c / n).

(** The element type of a descriptor array: what [-] and [*] do on two
    elements, and the value of an element as a number.  [np.sum] adds
    in a type wide enough for the result, [np.linalg.norm] converts to
    [float64] first; both see the elements through [to_R]. *)
Class DType (A : Type) : Type := {
  sub : A -> A -> A;
  mul : A -> A -> A;
  to_R : A -> R
}.

(** [dtype=uint8], the samples of a patch cut from an 8-bit image:
    arithmetic wraps around modulo 256. *)
#[export] Instance uint8 : DType Z := {|
  sub a b := (a - b) mod 256;
  mul a b := (a * b) mod 256;
  to_R := IZR
|}.

(** [dtype=float64] *)
#[export] Instance float64 : DType R := {|
  sub := Rminus;
  mul := Rmult;
  to_R := fun x => x
|}.

(** An element-wise operation on two 1-D arrays, with [numpy]'s
    broadcasting of an array of length one. *)
Definition broadcast2 {A : Type} (f : A -> A -> A) (u v : list A)
  : result (list A) :=
  if (length u =? length v)%nat then
    Ok (map (fun ab => f (fst ab) (snd ab)) (combine u v))
  else
    match u, v with
    | [a], _ => Ok (map (f a) v)
    | _, [b] => Ok (map (fun a => f a b) u)
    | _, _ => Raise ValueError
    end.

Definition Rsum (l : list R) : R := fold_right Rplus 0%R l.

Section Matcher.
Context {A : Type} {dt : DType A}.

(** [np.sum(d)] *)
Definition np_sum (d : list A) : R := Rsum (map to_R d).

(** [np.linalg.norm(d)] *)
Definition norm (d : list A) : R :=
  sqrt (Rsum (map (fun a => to_R a * to_R a)%R d)).

Definition is_SSD (method : string) : bool := String.eqb method "SSD".

(** The body of the loop over [descriptors2]; the loop state is
    [(best_match_index, best_match_score)]. *)
Definition match_step (method : string) (descriptor1 : list A)
  (best : option Z * xreal) (jd : Z * list A) : result (option Z * xreal) :=
  let '(j, descriptor2) := jd in
  if is_SSD method then
    diff <- broadcast2 sub descriptor1 descriptor2 ;;
    let score := Fin (np_sum (map (fun a => mul a a) diff)) in
    if xlt score (snd best) then Ok (Some j, score) else Ok best
  else
    let norm1 := norm descriptor1 in
    let norm2 := norm descriptor2 in
    prod <- broadcast2 mul descriptor1 descriptor2 ;;
    let correlation := np_sum prod in
    let score := xdiv correlation (norm1 * norm2) in
    if xgt score (snd best) then Ok (Some j, score) else Ok best.

(** The scan of [descriptors2] for one descriptor of [descriptors1]. *)
Definition best_match (method : string) (descriptor1 : list A)
  (descriptors2 : list (list A)) : result (option Z * xreal) :=
  let best_match_index := None in
  let best_match_score := if is_SSD method then PInf else Fin (-1) in
  for_each (enumerate descriptors2) (match_step method descriptor1)
           (best_match_index, best_match_score).

Definition match_features (descriptors1 descriptors2 : list (list A))
  (method : string) : result (list (Z * option Z)) :=
  for_each (enumerate descriptors1)
    (fun matches id =>
       best <- best_match method (snd id) descriptors2 ;;
       Ok (matches ++ [(fst id, fst best)]))
    [].

End Matcher.

(** ** Laws of the external collaborators *)

(** All entries of an array are zero. *)
Definition all_zero (a : array2 R) : Prop := Forall (Forall (eq 0%R)) a.

(** An [H x W] array, [H] and [W] positive. *)
Definition has_shape {A : Type} (H W : Z) (a : array2 A) : Prop :=
  0 < H /\ 0 < W /\ shape0 a = H /\ rect W a.

(** What the proofs use of OpenCV: the gradient and the box filter keep
    the shape of their input and map an all-zero input to an all-zero
    output, the box filter accepts every positive window size, and
    black has gray level zero. *)
Class Cv2Laws (cv : Cv2) : Prop := {
  bgr2gray_black : bgr2gray 0 0 0 = 0;
  Sobel_shape : forall H W a dx dy,
    has_shape H W a -> has_shape H W (Sobel a dx dy);
  Sobel_zero : forall a dx dy,
    Forall (Forall (eq 0)) a -> all_zero (Sobel a dx dy);
  boxFilter_shape : forall H W a w,
    has_shape H W a -> 0 < w ->
    exists b, boxFilter a w = Ok b /\ has_shape H W b;
  boxFilter_zero : forall a w b,
    all_zero a -> boxFilter a w = Ok b -> all_zero b
}.

(** What the proofs use of [numpy.linalg.eig]: on a symmetric real
    matrix [[a, b], [b, d]] it returns the two roots of the
    characteristic polynomial [l^2 - (a + d) l + (a d - b^2)], that is two
    numbers with that sum and that product. *)
Class LinAlgLaws (la : LinAlg) : Prop := {
  eig_symmetric : forall a b d,
    (fst (eig (a, b, b, d)) + snd (eig (a, b, b, d)) = a + d)%R /\
    (fst (eig (a, b, b, d)) * snd (eig (a, b, b, d)) = a * d - b * b)%R
}.

(** ** The selection rules, as the specification words them *)

(** [m] is the greatest entry of the [H x W] array [a]. *)
Definition global_max (H W : Z) (a : array2 R) (m : R) : Prop :=
  (exists r c, 0 <= r < H /\ 0 <= c < W /\ entry 0%R a r c = m) /\
  (forall r c, 0 <= r < H -> 0 <= c < W -> (entry 0%R a r c <= m)%R).

(** The entry at [(x, y)] is the greatest of the [(2w+1) x (2w+1)]
    window centred there. *)
Definition window_max (w : Z) (a : array2 R) (x y : Z) : Prop :=
  forall r c, y - w <= r <= y + w -> x - w <= c <= x + w ->
    (entry 0%R a r c <= entry 0%R a y x)%R.

(** Row-major scan order on [(x, y)] pairs: [y] ascending, then [x]. *)
Definition scan_before (p q : Z * Z) : Prop :=
  snd p < snd q \/ (snd p = snd q /\ fst p < fst q).

(** Row-major order on [(row, column)] pairs. *)
Definition row_major (p q : Z * Z) : Prop :=
  fst p < fst q \/ (fst p = fst q /\ snd p < snd q).

(** *** Auxiliary notions of the proofs *)

(** [m] is the greatest element of the list [l]. *)
Definition greatest (l : list R) (m : R) : Prop :=
  In m l /\ forall u, In u l -> (u <= m)%R.

Definition list_max (l : list R) : R :=
  match l with
  | [] => 0%R
  | v :: vs => fold_left Rmax vs v
  end.

(** The test of the suppression loop at an interior pixel. *)
Definition keeps (a : array2 R) (w : Z) (th : R) (y x : Z) : bool :=
  if Rgt_dec (entry 0%R a y x) th then
    if Req_dec_T (entry 0%R a y x)
                 (list_max (entries 0%R a (y - w) (y + w + 1) (x - w) (x + w + 1)))
    then true else false
  else false.

(** The corners the suppression loop finds, row by row. *)
Definition scan (a : array2 R) (H W w : Z) (th : R) : list (Z * Z) :=
  flat_map (fun y => map (fun x => (x, y))
                         (filter (keeps a w th y) (Py.range w (W - w))))
           (Py.range w (H - w)).

(** The true entries of [mask], listed row by row. *)
Definition where_true (H W : Z) (mask : array2 bool) : list (Z * Z) :=
  flat_map (fun r => map (fun c => (r, c))
                         (filter (fun c => entry false mask r c) (Py.range 0 W)))
           (Py.range 0 H).

(** The structure tensor the lambda-minus detector builds at pixel
    [(y, x)]: from the two gradients at that pixel only. *)
Definition tensor {cv : Cv2} (img : array2 Z) (y x : Z) : R * R * R * R :=
  let ix := entry 0%R (Sobel img 1 0) y x in
  let iy := entry 0%R (Sobel img 0 1) y x in
  (ix * ix, ix * iy, ix * iy, iy * iy)%R.

(** *** The scores of the matcher, for the statements *)

(** The SSD score of two descriptors of one length, as the element
    type computes it. *)
Definition ssd {A : Type} {dt : DType A} (d1 d2 : list A) : R :=
  np_sum (map (fun a => mul a a)
              (map (fun ab => sub (fst ab) (snd ab)) (combine d1 d2))).

(** All descriptors of a set have [n] entries. *)
Definition uniform {A : Type} (n : nat) (ds : list (list A)) : Prop :=
  Forall (fun d => length d = n) ds.

(** Among the first [k] descriptors of [ds], the one of index [j] is the
    first with the least SSD score to [d]. *)
Definition first_least {A : Type} {dt : DType A} (d : list A) (ds : list (list A))
  (k j : Z) : Prop :=
  0 <= j < k /\
  (forall j', 0 <= j' < k ->
     (ssd d (nth (Z.to_nat j) ds []) <= ssd d (nth (Z.to_nat j') ds []))%R) /\
  (forall j', 0 <= j' < j ->
     (ssd d (nth (Z.to_nat j) ds []) < ssd d (nth (Z.to_nat j') ds []))%R).

(** ** A reference implementation of the collaborators

    The laws above are satisfiable: this instance follows what OpenCV
    documents (3 x 3 Sobel kernels, normalised box filter, both with the
    default reflected border) and the closed form of the eigenvalues of
    a 2 x 2 matrix. *)

Module Reference.

(** [BORDER_REFLECT_101]: [... 2 1 | 0 1 2 ... n-1 | n-2 n-3 ...]. *)
Definition reflect101 (n i : Z) : Z :=
  if n <=? 1 then 0
  else let m := i mod (2 * n - 2) in
       if m <? n then m else 2 * n - 2 - m.

Definition sample (a : array2 Z) (y x : Z) : R :=
  IZR (entry 0 a (reflect101 (shape0 a) y) (reflect101 (shape1 a) x)).

Definition Sobel3 (a : array2 Z) (dx dy : nat) : array2 R :=
  map (fun y =>
         map (fun x =>
                match dx, dy with
                | 1%nat, 0%nat =>
                    (sample a (y - 1) (x + 1) - sample a (y - 1) (x - 1))
                    + 2 * (sample a y (x + 1) - sample a y (x - 1))
                    + (sample a (y + 1) (x + 1) - sample a (y + 1) (x - 1))
                | 0%nat, 1%nat =>
                    (sample a (y + 1) (x - 1) - sample a (y - 1) (x - 1))
                    + 2 * (sample a (y + 1) x - sample a (y - 1) x)
                    + (sample a (y + 1) (x + 1) - sample a (y - 1) (x + 1))
                | _, _ => 0
                end%R)
             (Py.range 0 (shape1 a)))
      (Py.range 0 (shape0 a)).

Definition sampleR (a : array2 R) (y x : Z) : R :=
  entry 0%R a (reflect101 (shape0 a) y) (reflect101 (shape1 a) x).

Definition box_mean (a : array2 R) (w : Z) : result (array2 R) :=
  if w <=? 0 then Raise cv2_error
  else
    Ok (map (fun y =>
               map (fun x =>
                      Rsum (flat_map
                              (fun dy => map (fun dx => sampleR a (y + dy) (x + dx))
                                             (Py.range (- (w / 2)) (w - w / 2)))
                              (Py.range (- (w / 2)) (w - w / 2)))
                      / (IZR w * IZR w))%R
                   (Py.range 0 (shape1 a)))
            (Py.range 0 (shape0 a))).

(** A fixed-point gray level, as OpenCV computes it on 8-bit samples. *)
Definition gray_level (b g r : Z) : Z :=
  (b * 1868 + g * 9617 + r * 4899 + 8192) / 16384.

Definition cv : Cv2 := {|
  bgr2gray := gray_level;
  Sobel := Sobel3;
  boxFilter := box_mean
|}.

Definition eig2 (m : R * R * R * R) : R * R :=
  let '(a, b, c, d) := m in
  let s := sqrt ((a + d) * (a + d) - 4 * (a * d - b * c)) in
  ((a + d + s) / 2, (a + d - s) / 2)%R.

Definition la : LinAlg := {| eig := eig2 |}.

End Reference.

(** ** Concrete inputs *)

(** A 4 x 4 colour image whose pixel in row [r], column [c] has the
    three samples [10 r + c]. *)
Definition ramp4 : image :=
  Img3D (map (fun r => map (fun c => [10 * r + c; 10 * r + c; 10 * r + c])
                           [0; 1; 2; 3])
             [0; 1; 2; 3]).

Definition ramp4_px : array2 (list Z) :=
  match ramp4 with
  | Img3D px => px
  | Img2D _ => []
  end.

(** A 3 x 3 response map with one peak in the middle. *)
Definition peak3 : array2 R :=
  [[0; 0; 0]; [0; 1; 0]; [0; 0; 0]]%R.

(** A 2 x 2 grayscale image. *)
Definition gray2 : array2 Z := [[1; 2]; [3; 4]].

(** A black 2 x 2 colour image. *)
Definition black2 : array2 (list Z) :=
  [[[0; 0; 0]; [0; 0; 0]]; [[0; 0; 0]; [0; 0; 0]]].

(** ** Further notions for the statements *)

(** *** The extractor on arbitrary integer corners *)

(** A coordinate [c] along an axis of [n] pixels gives a slice of exactly
    [p] indices: the window fits, or its upper bound is negative and
    counts [p] from the end. *)
Definition kept_coord (n p c : Z) : bool :=
  ((p / 2 <=? c) && (c + p / 2 <=? n)) || ((c =? p / 2 - n) && (p <? n)).

(** The coordinate whose window the slice of [c] is. *)
Definition alias_coord (n p c : Z) : Z :=
  if c + p / 2 <? 0 then c + n else c.

Definition kept_corner (H W p : Z) (c : Z * Z) : bool :=
  kept_coord H p (snd c) && kept_coord W p (fst c).

Definition alias_corner (H W p : Z) (c : Z * Z) : Z * Z :=
  (alias_coord W p (fst c), alias_coord H p (snd c)).


(** * Proofs *)

(** ** Ranges and slices *)

Lemma range_In a b i : In i (Py.range a b) <-> a <= i < b.
Proof.
  unfold Py.range. rewrite in_map_iff. split.
  - intros [k [<- Hk]]. apply in_seq in Hk. lia.
  - intros Hi. exists (Z.to_nat (i - a)). split; [lia|]. apply in_seq. lia.
Qed.

Lemma range_length a b : length (Py.range a b) = Z.to_nat (b - a).
Proof. unfold Py.range. now rewrite length_map, length_seq. Qed.

Lemma range_nil a b : b <= a -> Py.range a b = [].
Proof.
  intros Hle. unfold Py.range. replace (Z.to_nat (b - a)) with 0%nat by lia. reflexivity.
Qed.

Lemma range_cons a b : a < b -> Py.range a b = a :: Py.range (a + 1) b.
Proof.
  intros Hlt. unfold Py.range.
  replace (Z.to_nat (b - a)) with (S (Z.to_nat (b - (a + 1)))) by lia.
  cbn [seq map]. f_equal; [lia|].
  rewrite <- seq_shift, map_map. apply map_ext. intros k. lia.
Qed.

Lemma firstn_skipn_nth {A : Type} (d : A) (l : list A) :
  forall s k, (s + k <= length l)%nat ->
    firstn k (skipn s l) = map (fun i => nth i l d) (seq s k).
Proof.
  induction l as [|a l IH]; intros s k Hle.
  - cbn in Hle. assert (k = 0%nat) by lia. subst. now rewrite firstn_O.
  - destruct s as [|s].
    + destruct k as [|k]; [reflexivity|].
      cbn [skipn firstn seq map nth]. f_equal.
      rewrite <- seq_shift, map_map. cbn [nth].
      rewrite <- (IH 0%nat k) by (cbn in Hle; lia). reflexivity.
    + cbn [skipn]. rewrite (IH s k) by (cbn in Hle; lia).
      rewrite <- seq_shift, map_map. reflexivity.
Qed.

Lemma slice_nth {A : Type} (d : A) (l : list A) lo hi :
  0 <= lo -> 0 <= hi <= Z.of_nat (length l) ->
  Py.slice l lo hi = map (fun i => nth (Z.to_nat i) l d) (Py.range lo hi).
Proof.
  intros Hlo Hhi. unfold Py.slice, Py.slice_len, Py.clip.
  destruct (Z.ltb_spec lo 0); [lia|]. destruct (Z.ltb_spec hi 0); [lia|].
  destruct (Z_lt_le_dec lo hi) as [Hlt|Hge].
  - rewrite (firstn_skipn_nth d) by lia.
    unfold Py.range. rewrite map_map.
    replace (Z.to_nat (Z.max 0 (Z.min hi (Z.of_nat (length l)) - Z.min lo (Z.of_nat (length l)))))
      with (Z.to_nat (hi - lo)) by lia.
    replace (Z.to_nat (Z.min lo (Z.of_nat (length l)))) with (Z.to_nat lo) by lia.
    generalize (Z.to_nat (hi - lo)) as k. intros k.
    assert (Hs : forall s, seq s k = map (fun i => (s + i)%nat) (seq 0 k)).
    { induction k as [|k IHk]; intros s; [reflexivity|].
      cbn [seq map]. f_equal; [lia|].
      rewrite (IHk (S s)), <- seq_shift, map_map. apply map_ext. intros; lia. }
    rewrite Hs, map_map. apply map_ext. intros i. f_equal. lia.
  - rewrite range_nil by lia.
    replace (Z.to_nat (Z.max 0 (Z.min hi (Z.of_nat (length l)) - Z.min lo (Z.of_nat (length l)))))
      with 0%nat by lia.
    reflexivity.
Qed.

Lemma slice_len_window n lo hi :
  0 <= lo -> 0 <= hi <= n -> Py.slice_len n lo hi = span lo hi.
Proof.
  intros Hlo Hhi. unfold Py.slice_len, Py.clip, span.
  destruct (Z.ltb_spec lo 0); [lia|]. destruct (Z.ltb_spec hi 0); lia.
Qed.

(** ** The descriptor extractor *)

Lemma rect_nth {A : Type} (W : Z) (g : array2 A) (i : nat) :
  rect W g -> (i < length g)%nat -> Z.of_nat (length (nth i g [])) = W.
Proof.
  intros Hr Hi. unfold rect in Hr. rewrite Forall_forall in Hr.
  apply Hr, nth_In, Hi.
Qed.

Lemma rect_shape1 {A : Type} (W : Z) (g : array2 A) :
  rect W g -> 0 < shape0 g -> shape1 g = W.
Proof.
  intros Hr Hpos. destruct g as [|r g]; [cbn in Hpos; lia|].
  inversion Hr; subst. reflexivity.
Qed.

Lemma flat_map_length_const {A B : Type} (f : A -> list B) (k : nat) (l : list A) :
  (forall a, In a l -> length (f a) = k) ->
  length (flat_map f l) = (length l * k)%nat.
Proof.
  induction l as [|a l IH]; intros Hk; [reflexivity|].
  cbn [flat_map length]. rewrite length_app, (Hk a (or_introl eq_refl)), IH.
  - lia.
  - intros b Hb. apply Hk. now right.
Qed.

Lemma slice2_entries {A : Type} (d : A) (g : array2 A) (H W y0 y1 x0 x1 : Z) :
  rect W g -> shape0 g = H ->
  0 <= y0 -> 0 <= y1 <= H -> 0 <= x0 -> 0 <= x1 <= W ->
  flatten (slice2 g y0 y1 x0 x1) = entries d g y0 y1 x0 x1.
Proof.
  intros Hr HH Hy0 Hy1 Hx0 Hx1. unfold flatten, slice2, entries, shape0 in *.
  rewrite (slice_nth [] g y0 y1) by lia.
  rewrite map_map, flat_map_concat_map. f_equal.
  apply map_ext_in. intros r Hin. apply range_In in Hin.
  rewrite (slice_nth d).
  - reflexivity.
  - lia.
  - rewrite (rect_nth W) by (assumption || lia). lia.
Qed.

Section ExtractorFacts.
Context {cv : Cv2}.
Variables (g : array2 Z) (H W : Z).
Hypothesis g_rect : rect W g.
Hypothesis g_rows : shape0 g = H.
Hypothesis H_pos : 0 < H.

Lemma extract_step_spec (p x y : Z) (acc : list (list Z)) :
  0 <= x -> 0 <= y ->
  extract_step g p acc (x, y) =
  if unclipped H W p (x, y) then acc ++ [window_samples g H W p (x, y)] else acc.
Proof.
  intros Hx Hy. unfold extract_step, slice2_shape, shape_eqb, unclipped, window_samples.
  cbn [fst snd]. rewrite (rect_shape1 W g g_rect) by lia. rewrite g_rows.
  unfold window_lo, window_hi.
  destruct (Z_lt_le_dec p 0) as [Hneg|Hp].
  - assert (E1 : (Py.slice_len H (Z.max 0 (y - p / 2)) (Z.min H (y + p / 2)) =? p) = false)
      by (apply Z.eqb_neq; unfold Py.slice_len; lia).
    assert (E2 : (span (Z.max 0 (y - p / 2)) (Z.min H (y + p / 2)) =? p) = false)
      by (apply Z.eqb_neq; unfold span; lia).
    rewrite E1, E2. reflexivity.
  - assert (Hh : 0 <= p / 2) by (apply Z.div_pos; lia).
    assert (HW : 0 <= W).
    { rewrite <- (rect_shape1 W g g_rect) by lia. unfold shape1. destruct g; lia. }
    rewrite !slice_len_window by lia.
    destruct ((span _ _ =? p) && (span _ _ =? p)); cbn [negb]; [|reflexivity].
    rewrite (slice2_entries 0 g H W) by (assumption || lia). reflexivity.
Qed.

Lemma extract_loop_spec (p : Z) (corners : list (Z * Z)) :
  Forall (fun c => 0 <= fst c /\ 0 <= snd c) corners ->
  forall acc,
    fold_left (extract_step g p) corners acc =
    acc ++ map (window_samples g H W p) (filter (unclipped H W p) corners).
Proof.
  induction 1 as [|[x y] corners [Hx Hy] _ IH]; intros acc.
  - cbn. now rewrite app_nil_r.
  - cbn [fold_left filter]. cbn [fst snd] in Hx, Hy.
    rewrite extract_step_spec, IH by assumption.
    destruct (unclipped H W p (x, y)); [|reflexivity].
    cbn [map]. now rewrite <- app_assoc.
Qed.

Lemma window_samples_length (p : Z) (c : Z * Z) :
  unclipped H W p c = true ->
  Z.of_nat (length (window_samples g H W p c)) = p * p.
Proof.
  unfold unclipped, window_samples, entries, span. intros Hu.
  apply andb_true_iff in Hu. destruct Hu as [Hy Hx].
  apply Z.eqb_eq in Hy, Hx.
  rewrite (flat_map_length_const _ (Z.to_nat p)).
  - rewrite range_length. nia.
  - intros r _. rewrite length_map, range_length. lia.
Qed.

End ExtractorFacts.

(** ** Indexing and maxima *)

Lemma index_in_range {A : Type} (d : A) (l : list A) (i : Z) :
  0 <= i < Z.of_nat (length l) -> Py.index l i = Ok (nth (Z.to_nat i) l d).
Proof.
  intros Hi. unfold Py.index.
  destruct (Z.ltb_spec i (- Z.of_nat (length l))); [lia|].
  destruct (Z.leb_spec (Z.of_nat (length l)) i); [lia|]. cbn [orb].
  destruct (Z.ltb_spec i 0); [lia|].
  rewrite (nth_error_nth' l d) by lia. reflexivity.
Qed.

Lemma get2_entry {A : Type} (d : A) (H W : Z) (a : array2 A) (y x : Z) :
  has_shape H W a -> 0 <= y < H -> 0 <= x < W ->
  get2 a y x = Ok (entry d a y x).
Proof.
  intros (_ & _ & HH & Hr) Hy Hx. unfold get2, shape0 in *.
  rewrite (index_in_range []) by lia. cbn [bind].
  rewrite (index_in_range d).
  - reflexivity.
  - rewrite (rect_nth W) by (assumption || lia). lia.
Qed.

Lemma fold_Rmax_spec (vs : list R) :
  forall v, let m := fold_left Rmax vs v in
    In m (v :: vs) /\ forall u, In u (v :: vs) -> (u <= m)%R.
Proof.
  induction vs as [|a vs IH]; intros v; cbn [fold_left].
  - split; [now left|]. intros u [<-|[]]. lra.
  - destruct (IH (Rmax v a)) as [Hin Hle]. split.
    + destruct Hin as [Hm|Hm]; [|now right; right].
      rewrite <- Hm. unfold Rmax. destruct (Rle_dec v a); [right; now left | now left].
    + intros u Hu.
      assert (Hva : (v <= Rmax v a)%R) by apply Rmax_l.
      assert (Haa : (a <= Rmax v a)%R) by apply Rmax_r.
      assert (Hmm : (Rmax v a <= fold_left Rmax vs (Rmax v a))%R) by (apply Hle; now left).
      destruct Hu as [<-|[<-|Hu]]; [lra | lra |].
      apply Hle. now right.
Qed.


Lemma greatest_unique l m m' : greatest l m -> greatest l m' -> m = m'.
Proof.
  intros [Hin Hle] [Hin' Hle']. apply Rle_antisym; [now apply Hle' | now apply Hle].
Qed.

Lemma np_max_spec (a : array2 R) :
  flatten a <> [] -> exists m, np_max a = Ok m /\ greatest (flatten a) m.
Proof.
  intros Hne. unfold np_max. destruct (flatten a) as [|v vs]; [congruence|].
  eexists. split; [reflexivity|]. apply fold_Rmax_spec.
Qed.

Lemma in_entries {A : Type} (d : A) (a : array2 A) (y0 y1 x0 x1 : Z) (v : A) :
  In v (entries d a y0 y1 x0 x1) <-> exists r c, y0 <= r < y1 /\ x0 <= c < x1 /\ entry d a r c = v.
Proof.
  unfold entries. rewrite in_flat_map. split.
  - intros (r & Hr & Hv). apply in_map_iff in Hv. destruct Hv as (c & Hc & Hin).
    exists r, c. rewrite range_In in Hr, Hin. auto.
  - intros (r & c & Hr & Hc & Hv). exists r. split; [now apply range_In|].
    apply in_map_iff. exists c. split; [assumption | now apply range_In].
Qed.

Lemma flatten_whole {A : Type} (d : A) (H W : Z) (a : array2 A) :
  has_shape H W a ->
  flatten a = entries d a 0 H 0 W.
Proof.
  intros (HH & HW & Hs & Hr).
  rewrite <- (slice2_entries d a H W) by (assumption || lia).
  unfold slice2, flatten. f_equal.
  assert (Hall : Py.slice a 0 H = a).
  { unfold Py.slice, Py.slice_len, Py.clip, shape0 in *. rewrite Z.ltb_irrefl.
    destruct (Z.ltb_spec H 0); [lia|].
    rewrite Hs. replace (Z.to_nat (Z.min 0 H)) with 0%nat by lia. cbn [skipn].
    apply firstn_all2. lia. }
  rewrite Hall. etransitivity; [symmetry; apply map_id|]. apply map_ext_in.
  intros r Hin. symmetry. unfold rect in Hr. rewrite Forall_forall in Hr. specialize (Hr r Hin).
  unfold Py.slice, Py.slice_len, Py.clip. rewrite Z.ltb_irrefl.
  destruct (Z.ltb_spec W 0); [lia|].
  rewrite Hr. replace (Z.to_nat (Z.min 0 W)) with 0%nat by lia. cbn [skipn].
  apply firstn_all2. lia.
Qed.

Lemma np_max_global (H W : Z) (a : array2 R) :
  has_shape H W a -> exists m, np_max a = Ok m /\ global_max H W a m.
Proof.
  intros Hs. destruct (np_max_spec a) as (m & Hm & Hin & Hle).
  - rewrite (flatten_whole 0%R H W a Hs). destruct Hs as (HH & HW & _).
    unfold entries. rewrite (range_cons 0 H) by lia. cbn [flat_map].
    rewrite (range_cons 0 W) by lia. cbn [map app]. discriminate.
  - exists m. split; [assumption|].
    rewrite (flatten_whole 0%R H W a Hs) in Hin, Hle. split.
    + apply in_entries in Hin. destruct Hin as (r & c & Hr & Hc & Hv). now exists r, c.
    + intros r c Hr Hc. apply Hle, in_entries. now exists r, c.
Qed.

Lemma global_max_unique H W a m m' :
  global_max H W a m -> global_max H W a m' -> m = m'.
Proof.
  intros [(r & c & Hr & Hc & E) Hle] [(r' & c' & Hr' & Hc' & E') Hle'].
  apply Rle_antisym.
  - rewrite <- E. now apply Hle'.
  - rewrite <- E'. now apply Hle.
Qed.

(** ** Thresholding and non-maximum suppression *)

(** *** Sorted lists *)

Lemma StronglySorted_app {A : Type} (R : A -> A -> Prop) (l1 l2 : list A) :
  StronglySorted R l1 -> StronglySorted R l2 ->
  (forall a b, In a l1 -> In b l2 -> R a b) ->
  StronglySorted R (l1 ++ l2).
Proof.
  induction l1 as [|a l1 IH]; intros H1 H2 H12; [exact H2|].
  apply StronglySorted_inv in H1. destruct H1 as [H1 Ha].
  cbn [app]. constructor.
  - apply IH; [assumption | assumption |]. intros x y Hx Hy. apply H12; [now right | assumption].
  - apply Forall_app. split; [assumption|].
    apply Forall_forall. intros y Hy. apply H12; [now left | assumption].
Qed.

Lemma StronglySorted_filter {A : Type} (R : A -> A -> Prop) (f : A -> bool) (l : list A) :
  StronglySorted R l -> StronglySorted R (filter f l).
Proof.
  induction 1 as [|a l Hs IH Ha]; cbn [filter]; [constructor|].
  destruct (f a); [|assumption]. constructor; [assumption|].
  rewrite Forall_forall in *. intros x Hx. apply filter_In in Hx. now apply Ha.
Qed.

Lemma StronglySorted_map {A B : Type} (R : A -> A -> Prop) (S : B -> B -> Prop)
  (f : A -> B) (l : list A) :
  (forall a b, R a b -> S (f a) (f b)) ->
  StronglySorted R l -> StronglySorted S (map f l).
Proof.
  intros Hf. induction 1 as [|a l Hs IH Ha]; cbn [map]; constructor; [assumption|].
  rewrite Forall_forall in *. intros y Hy. apply in_map_iff in Hy.
  destruct Hy as (x & <- & Hx). now apply Hf, Ha.
Qed.

Lemma range_sorted (a b : Z) : StronglySorted Z.lt (Py.range a b).
Proof.
  remember (Z.to_nat (b - a)) as n eqn:Hn. revert a Hn.
  induction n as [|n IH]; intros a Hn.
  - rewrite range_nil by lia. constructor.
  - rewrite range_cons by lia. constructor.
    + apply IH. lia.
    + apply Forall_forall. intros i Hi. apply range_In in Hi. lia.
Qed.

(** *** The suppression loop *)

Section Suppression.
Variables (a : array2 R) (H W w : Z) (th : R).
Hypothesis a_shape : has_shape H W a.
Hypothesis w_nonneg : 0 <= w.

Lemma window_greatest (y x : Z) :
  w <= y < H - w -> w <= x < W - w ->
  greatest (entries 0%R a (y - w) (y + w + 1) (x - w) (x + w + 1))
           (list_max (entries 0%R a (y - w) (y + w + 1) (x - w) (x + w + 1))).
Proof.
  intros Hy Hx. unfold list_max.
  destruct (entries 0%R a (y - w) (y + w + 1) (x - w) (x + w + 1)) as [|v vs] eqn:E.
  - exfalso. assert (Hin : In (entry 0%R a y x) []); [|destruct Hin].
    rewrite <- E. apply in_entries. exists y, x. repeat split; lia.
  - apply fold_Rmax_spec.
Qed.

Lemma nms_step_spec (y x : Z) (corners : list (Z * Z)) :
  w <= y < H - w -> w <= x < W - w ->
  nms_step a w th y corners x =
  Ok (if keeps a w th y x then corners ++ [(x, y)] else corners).
Proof.
  intros Hy Hx. unfold nms_step, keeps.
  rewrite (get2_entry 0%R H W) by (assumption || lia). cbn [bind].
  destruct (Rgt_dec (entry 0%R a y x) th); [|reflexivity].
  destruct a_shape as (HH & HW & Hs & Hr).
  unfold np_max. rewrite (slice2_entries 0%R a H W) by (assumption || lia).
  pose proof (window_greatest y x Hy Hx) as [Hin _]. unfold list_max in *.
  destruct (entries 0%R a (y - w) (y + w + 1) (x - w) (x + w + 1)); [destruct Hin|].
  cbn [bind]. destruct (Req_dec_T _ _); reflexivity.
Qed.

Lemma keeps_iff (y x : Z) :
  w <= y < H - w -> w <= x < W - w ->
  keeps a w th y x = true <->
  (entry 0%R a y x > th)%R /\ window_max w a x y.
Proof.
  intros Hy Hx. pose proof (window_greatest y x Hy Hx) as [Hin Hle].
  unfold keeps, window_max.
  destruct (Rgt_dec (entry 0%R a y x) th) as [Hgt|Hngt]; [|split; [discriminate | tauto]].
  destruct (Req_dec_T _ _) as [E|NE].
  - split; [intros _ | reflexivity]. split; [assumption|].
    intros r c Hr Hc. rewrite E. apply Hle, in_entries. exists r, c. repeat split; lia.
  - split; [discriminate|]. intros [_ Hmax]. exfalso. apply NE.
    apply Rle_antisym.
    + apply Hle, in_entries. exists y, x. repeat split; lia.
    + apply in_entries in Hin. destruct Hin as (r & c & Hr & Hc & <-).
      apply Hmax; lia.
Qed.

Lemma row_loop_spec (y : Z) (xs : list Z) :
  w <= y < H - w -> Forall (fun x => w <= x < W - w) xs ->
  forall corners,
    for_each xs (nms_step a w th y) corners =
    Ok (corners ++ map (fun x => (x, y)) (filter (keeps a w th y) xs)).
Proof.
  intros Hy. induction 1 as [|x xs Hx _ IH]; intros corners; cbn [for_each filter map].
  - now rewrite app_nil_r.
  - rewrite nms_step_spec by assumption. cbn [bind]. rewrite IH.
    destruct (keeps a w th y x); [|reflexivity].
    cbn [map]. now rewrite <- app_assoc.
Qed.

Lemma scan_loop_spec (ys : list Z) :
  Forall (fun y => w <= y < H - w) ys ->
  forall corners,
    for_each ys
      (fun corners y =>
         for_each (Py.range w (W - w)) (nms_step a w th y) corners) corners =
    Ok (corners ++
        flat_map (fun y => map (fun x => (x, y))
                               (filter (keeps a w th y) (Py.range w (W - w)))) ys).
Proof.
  induction 1 as [|y ys Hy _ IH]; intros corners; cbn [for_each flat_map].
  - now rewrite app_nil_r.
  - rewrite row_loop_spec.
    + cbn [bind]. rewrite IH. now rewrite <- app_assoc.
    + assumption.
    + apply Forall_forall. intros x Hx. now apply range_In in Hx.
Qed.

Lemma scan_In (x y : Z) :
  In (x, y) (scan a H W w th) <->
  w <= x < W - w /\ w <= y < H - w /\ keeps a w th y x = true.
Proof.
  unfold scan. rewrite in_flat_map. split.
  - intros (y' & Hy' & Hin). apply in_map_iff in Hin.
    destruct Hin as (x' & E & Hx'). injection E as -> ->.
    apply filter_In in Hx'. rewrite range_In in Hx', Hy'. tauto.
  - intros (Hx & Hy & Hk). exists y. split; [now apply range_In|].
    apply in_map_iff. exists x. split; [reflexivity|].
    apply filter_In. split; [now apply range_In | assumption].
Qed.

Lemma scan_sorted : StronglySorted scan_before (scan a H W w th).
Proof.
  unfold scan. generalize (range_sorted w (H - w)).
  induction 1 as [|y ys Hs IH Hy]; cbn [flat_map]; [constructor|].
  apply StronglySorted_app.
  - apply (StronglySorted_map Z.lt).
    + intros x x' Hlt. right. cbn. lia.
    + apply StronglySorted_filter, range_sorted.
  - exact IH.
  - intros p q Hp Hq. apply in_map_iff in Hp. destruct Hp as (x & <- & _).
    apply in_flat_map in Hq. destruct Hq as (y' & Hy' & Hq).
    apply in_map_iff in Hq. destruct Hq as (x' & <- & _).
    left. cbn. rewrite Forall_forall in Hy. now apply Hy.
Qed.

Lemma select_spec (t : R) (gmax : R) :
  th = (t * gmax)%R -> global_max H W a gmax ->
  lambda_minus_select a w t = Ok (scan a H W w th).
Proof.
  intros Hth Hg. unfold lambda_minus_select.
  destruct (np_max_global H W a a_shape) as (m & Hm & Hgm).
  rewrite Hm. cbn [bind]. rewrite (global_max_unique _ _ _ _ _ Hgm Hg), <- Hth.
  destruct a_shape as (HH & HW & Hs & Hr).
  rewrite (rect_shape1 W a Hr), Hs by lia.
  rewrite scan_loop_spec; [reflexivity|].
  apply Forall_forall. intros y Hy. now apply range_In in Hy.
Qed.

End Suppression.

(** C1.  On every [H x W] response map ([H], [W] positive) and for
    every window size [w >= 0] and fraction [t], lines 38-55 of the
    lambda-minus detector return exactly the interior pixels [(x, y)],
    [w <= x < W - w] and [w <= y < H - w], whose response is strictly
    greater than [t] times the global maximum of the map and is the
    greatest of the [(2w+1) x (2w+1)] window centred there (a pixel that
    ties with another entry of its window is kept).  They come as
    [(x, y)] pairs in row-major scan order, which is strict: each pixel
    once, none within [w] of a border. *)
Theorem lambda_minus_select_spec
  (lambda_minus : array2 R) (H W w : Z) (t : R) :
  has_shape H W lambda_minus -> 0 <= w ->
  exists gmax corners,
    global_max H W lambda_minus gmax /\
    lambda_minus_select lambda_minus w t = Ok corners /\
    (forall x y, In (x, y) corners <->
       w <= x < W - w /\ w <= y < H - w /\
       (entry 0%R lambda_minus y x > t * gmax)%R /\
       window_max w lambda_minus x y) /\
    StronglySorted scan_before corners.
Proof.
  intros Hs Hw. destruct (np_max_global H W lambda_minus Hs) as (gmax & _ & Hg).
  exists gmax, (scan lambda_minus H W w (t * gmax)%R). split; [assumption|]. split.
  - now apply (select_spec lambda_minus H W w (t * gmax)%R Hs Hw t gmax).
  - split; [|apply scan_sorted].
    intros x y. rewrite scan_In. split.
    + intros (Hx & Hy & Hk). apply (keeps_iff lambda_minus H W w) in Hk; tauto.
    + intros (Hx & Hy & Hk). split; [assumption|]. split; [assumption|].
      now apply (keeps_iff lambda_minus H W w).
Qed.

(** ** Shapes of the intermediate arrays *)

(** *** Element-wise operations *)

Lemma nth_map_in {A B : Type} (f : A -> B) (l : list A) (n : nat) (d : A) (e : B) :
  (n < length l)%nat -> nth n (map f l) e = f (nth n l d).
Proof.
  intros Hn. rewrite (nth_indep _ e (f d)) by (now rewrite length_map).
  apply map_nth.
Qed.

Lemma has_shape_map {A B : Type} (f : A -> B) (H W : Z) (a : array2 A) :
  has_shape H W a -> has_shape H W (map (map f) a).
Proof.
  intros (HH & HW & Hs & Hr). unfold has_shape, shape0, rect in *.
  rewrite length_map. repeat split; try assumption.
  apply Forall_map. eapply Forall_impl; [|exact Hr].
  intros r Hlen. now rewrite length_map.
Qed.

Lemma entry_map {A B : Type} (f : A -> B) (dA : A) (dB : B) (H W : Z)
  (a : array2 A) (y x : Z) :
  has_shape H W a -> 0 <= y < H -> 0 <= x < W ->
  entry dB (map (map f) a) y x = f (entry dA a y x).
Proof.
  intros (HH & HW & Hs & Hr) Hy Hx. unfold entry, shape0 in *.
  rewrite (nth_map_in (map f) a _ [] []) by lia.
  apply nth_map_in. pose proof (rect_nth W a (Z.to_nat y) Hr). lia.
Qed.

Lemma has_shape_zip2 {A B C : Type} (f : A -> B -> C) (H W : Z)
  (a : array2 A) (b : array2 B) :
  has_shape H W a -> has_shape H W b -> has_shape H W (zip2 f a b).
Proof.
  intros (HH & HW & Hs & Hr) (_ & _ & Hs' & Hr'). unfold has_shape, shape0, rect, zip2 in *.
  rewrite length_map, length_combine. repeat split; try assumption; [lia|].
  apply Forall_map, Forall_forall. intros [r r'] Hin. cbn [fst snd].
  rewrite length_map, length_combine.
  rewrite Forall_forall in Hr, Hr'.
  pose proof (Hr r (in_combine_l _ _ _ _ Hin)).
  pose proof (Hr' r' (in_combine_r _ _ _ _ Hin)). lia.
Qed.

Lemma entry_zip2 {A B C : Type} (f : A -> B -> C) (dA : A) (dB : B) (dC : C)
  (H W : Z) (a : array2 A) (b : array2 B) (y x : Z) :
  has_shape H W a -> has_shape H W b -> 0 <= y < H -> 0 <= x < W ->
  entry dC (zip2 f a b) y x = f (entry dA a y x) (entry dB b y x).
Proof.
  intros (HH & HW & Hs & Hr) (_ & _ & Hs' & Hr') Hy Hx. unfold entry, zip2, shape0 in *.
  rewrite (nth_map_in _ (combine a b) _ ([], []) []) by (rewrite length_combine; lia).
  rewrite combine_nth by lia. cbn [fst snd].
  pose proof (rect_nth W a (Z.to_nat y) Hr).
  pose proof (rect_nth W b (Z.to_nat y) Hr').
  rewrite (nth_map_in _ _ _ (dA, dB) dC) by (rewrite length_combine; lia).
  rewrite combine_nth by lia. reflexivity.
Qed.

Lemma reshape_flatten {A : Type} (a : array2 A) (W : nat) :
  Forall (fun r => length r = W) a ->
  reshape (length a) W (flatten a) = a.
Proof.
  induction 1 as [|r a Hr _ IH]; [reflexivity|].
  cbn [length reshape flatten concat]. fold (flatten a).
  rewrite firstn_app, skipn_app, Hr, Nat.sub_diag, firstn_all2, skipn_all2 by lia.
  cbn [firstn skipn app]. rewrite app_nil_r. now rewrite IH.
Qed.

Lemma reshape_flatten_shape {A : Type} (H W : Z) (a : array2 A) :
  has_shape H W a -> reshape (Z.to_nat H) (Z.to_nat W) (flatten a) = a.
Proof.
  intros (HH & HW & Hs & Hr). unfold shape0 in Hs.
  replace (Z.to_nat H) with (length a) by lia. apply reshape_flatten.
  eapply Forall_impl; [|exact Hr]. intros r Hlen. cbn in Hlen. lia.
Qed.

Lemma has_shape_dims {A : Type} (H W : Z) (a : array2 A) :
  has_shape H W a -> shape0 a = H /\ shape1 a = W.
Proof.
  intros (HH & HW & Hs & Hr). split; [assumption|]. apply rect_shape1; [assumption | lia].
Qed.

Lemma has_shape_to_gray {cv : Cv2} (H W : Z) (px : array2 (list Z)) :
  bgr_image H W (Img3D px) -> has_shape H W (to_gray px).
Proof.
  intros (HH & HW & Hs & Hr & _). apply has_shape_map. now repeat split.
Qed.

Lemma cvtColor_bgr {cv : Cv2} (H W : Z) (px : array2 (list Z)) :
  bgr_image H W (Img3D px) -> cvtColor_BGR2GRAY (Img3D px) = Ok (to_gray px).
Proof.
  intros (HH & HW & Hs & Hr & Hc). unfold cvtColor_BGR2GRAY, is_empty, channels.
  rewrite (rect_shape1 W px Hr), Hs by lia.
  destruct (Z.eqb_spec H 0); [lia|]. destruct (Z.eqb_spec W 0); [lia|]. cbn [orb].
  destruct px as [|[|p r] px]; cbn in Hs; [lia | |].
  - inversion Hr; subst. cbn in *. lia.
  - inversion Hc as [|? ? Hp _]; subst. inversion Hp as [|? ? Hp3 _]; subst.
    rewrite Hp3. reflexivity.
Qed.

Lemma cvtColor_gray {cv : Cv2} (px : array2 Z) :
  cvtColor_BGR2GRAY (Img2D px) = Raise cv2_error.
Proof.
  unfold cvtColor_BGR2GRAY. destruct (is_empty (Img2D px)); reflexivity.
Qed.

(** *** The lambda-minus response *)

Section Response.
Context {cv : Cv2} {cvl : Cv2Laws cv} {la : LinAlg}.
Variables (img : array2 Z) (H W : Z).
Hypothesis img_shape : has_shape H W img.

Lemma lambda_minus_response_map :
  lambda_minus_response img =
  map (map (fun m => Rmin (fst (eig m)) (snd (eig m))))
      (zip2 (fun ab cd => (fst ab, snd ab, fst cd, snd cd))
         (zip2 pair (zip2 Rmult (Sobel img 1 0) (Sobel img 1 0))
                    (zip2 Rmult (Sobel img 1 0) (Sobel img 0 1)))
         (zip2 pair (zip2 Rmult (Sobel img 1 0) (Sobel img 0 1))
                    (zip2 Rmult (Sobel img 0 1) (Sobel img 0 1)))).
Proof.
  unfold lambda_minus_response.
  destruct (has_shape_dims H W img img_shape) as [-> ->].
  set (M := zip2 _ _ _).
  assert (HM : has_shape H W M)
    by (unfold M; repeat apply has_shape_zip2; now apply Sobel_shape).
  unfold flatten at 1. rewrite concat_map. fold (flatten (map (map eig) M)).
  rewrite (reshape_flatten_shape H W) by now apply has_shape_map.
  rewrite map_map. apply map_ext. intros r. now rewrite map_map.
Qed.

Lemma lambda_minus_response_shape : has_shape H W (lambda_minus_response img).
Proof.
  rewrite lambda_minus_response_map. apply has_shape_map.
  repeat apply has_shape_zip2; now apply Sobel_shape.
Qed.

Lemma lambda_minus_response_entry (y x : Z) :
  0 <= y < H -> 0 <= x < W ->
  entry 0%R (lambda_minus_response img) y x =
  Rmin (fst (eig (tensor img y x))) (snd (eig (tensor img y x))).
Proof.
  intros Hy Hx. rewrite lambda_minus_response_map.
  pose proof (Sobel_shape H W img 1 0 img_shape) as Sx.
  pose proof (Sobel_shape H W img 0 1 img_shape) as Sy.
  rewrite (entry_map _ (0, 0, 0, 0)%R 0%R H W)
    by (assumption || (repeat apply has_shape_zip2; assumption)).
  rewrite (entry_zip2 _ (0, 0)%R (0, 0)%R _ H W)
    by (assumption || (repeat apply has_shape_zip2; assumption)).
  rewrite !(entry_zip2 pair 0%R 0%R _ H W)
    by (assumption || (repeat apply has_shape_zip2; assumption)).
  rewrite !(entry_zip2 Rmult 0%R 0%R _ H W) by assumption.
  reflexivity.
Qed.

End Response.

(** ** The smaller eigenvalue *)

(** *** Eigenvalues of a symmetric 2 x 2 matrix *)




(** ** Thresholding without suppression *)

(** *** [enumerate] and [argwhere] *)

Lemma enumerate_from {A : Type} (d : A) (l : list A) :
  forall s,
    combine (map (fun i => s + Z.of_nat i) (seq 0 (length l))) l =
    map (fun i => (i, nth (Z.to_nat (i - s)) l d))
        (Py.range s (s + Z.of_nat (length l))).
Proof.
  induction l as [|a l IH]; intros s.
  - cbn. rewrite range_nil by lia. reflexivity.
  - rewrite range_cons by (cbn [length]; lia).
    cbn [length seq map combine]. f_equal.
    + rewrite Z.add_0_r, Z.sub_diag. reflexivity.
    + rewrite <- seq_shift, map_map.
      replace (s + Z.of_nat (S (length l))) with (s + 1 + Z.of_nat (length l)) by lia.
      rewrite <- (map_ext (fun i => s + 1 + Z.of_nat i)) by (intros; lia).
      rewrite IH. apply map_ext_in. intros i Hi. apply range_In in Hi.
      f_equal. replace (Z.to_nat (i - s)) with (S (Z.to_nat (i - (s + 1)))) by lia.
      reflexivity.
Qed.

Lemma enumerate_nth {A : Type} (d : A) (l : list A) :
  enumerate l =
  map (fun i => (i, nth (Z.to_nat i) l d)) (Py.range 0 (Z.of_nat (length l))).
Proof.
  unfold enumerate. unfold Py.range at 1.
  rewrite Z.sub_0_r, Nat2Z.id. rewrite (enumerate_from d l 0).
  cbn [Z.add]. apply map_ext. intros i. now rewrite Z.sub_0_r.
Qed.

Lemma filter_map_comm {A B : Type} (f : B -> bool) (g : A -> B) (l : list A) :
  filter f (map g l) = map g (filter (fun a => f (g a)) l).
Proof.
  induction l as [|a l IH]; [reflexivity|]. cbn [map filter].
  destruct (f (g a)); cbn [map]; now rewrite IH.
Qed.

Lemma flat_map_ext_in {A B : Type} (f g : A -> list B) (l : list A) :
  (forall a, In a l -> f a = g a) -> flat_map f l = flat_map g l.
Proof.
  intros Hfg. rewrite !flat_map_concat_map. f_equal. now apply map_ext_in.
Qed.

Lemma argwhere_where_true (H W : Z) (mask : array2 bool) :
  has_shape H W mask -> argwhere mask = where_true H W mask.
Proof.
  intros (HH & HW & Hs & Hr). unfold argwhere, where_true, shape0 in *.
  rewrite (enumerate_nth [] mask), Hs, flat_map_concat_map, map_map,
    <- flat_map_concat_map.
  apply flat_map_ext_in. intros r Hin. apply range_In in Hin. cbn [fst snd].
  rewrite (enumerate_nth false), (rect_nth W) by (assumption || lia).
  rewrite filter_map_comm, map_map. reflexivity.
Qed.

Lemma where_true_In (H W : Z) (mask : array2 bool) (r c : Z) :
  In (r, c) (where_true H W mask) <->
  0 <= r < H /\ 0 <= c < W /\ entry false mask r c = true.
Proof.
  unfold where_true. rewrite in_flat_map. split.
  - intros (r' & Hr' & Hin). apply in_map_iff in Hin.
    destruct Hin as (c' & E & Hc'). injection E as -> ->.
    apply filter_In in Hc'. rewrite range_In in Hc', Hr'. tauto.
  - intros (Hr & Hc & Hk). exists r. split; [now apply range_In|].
    apply in_map_iff. exists c. split; [reflexivity|].
    apply filter_In. split; [now apply range_In | assumption].
Qed.

Lemma where_true_sorted (H W : Z) (mask : array2 bool) :
  StronglySorted row_major (where_true H W mask).
Proof.
  unfold where_true. generalize (range_sorted 0 H).
  induction 1 as [|r rs Hs IH Hr]; cbn [flat_map]; [constructor|].
  apply StronglySorted_app.
  - apply (StronglySorted_map Z.lt).
    + intros c c' Hlt. right. cbn. lia.
    + apply StronglySorted_filter, range_sorted.
  - exact IH.
  - intros p q Hp Hq. apply in_map_iff in Hp. destruct Hp as (c & <- & _).
    apply in_flat_map in Hq. destruct Hq as (r' & Hr' & Hq).
    apply in_map_iff in Hq. destruct Hq as (c' & <- & _).
    left. cbn. rewrite Forall_forall in Hr. now apply Hr.
Qed.

(** *** The Harris response *)

Lemma harris_select_spec (R_map : array2 R) (H W : Z) (t gmax : R) :
  has_shape H W R_map -> global_max H W R_map gmax ->
  exists corners,
    harris_select R_map t = Ok corners /\
    (forall r c, In (r, c) corners <->
       0 <= r < H /\ 0 <= c < W /\ (entry 0%R R_map r c > t * gmax)%R) /\
    StronglySorted row_major corners.
Proof.
  intros Hs Hg. unfold harris_select.
  destruct (np_max_global H W R_map Hs) as (m & Hm & Hgm).
  rewrite Hm. cbn [bind]. rewrite (global_max_unique _ _ _ _ _ Hgm Hg).
  eexists. split; [reflexivity|].
  rewrite (argwhere_where_true H W) by now apply has_shape_map.
  split; [|apply where_true_sorted].
  intros r c. rewrite where_true_In. split.
  - intros (Hr & Hc & Ht). split; [assumption|]. split; [assumption|].
    rewrite (entry_map _ 0%R false H W) in Ht by assumption.
    destruct (Rgt_dec _ _); [assumption | discriminate].
  - intros (Hr & Hc & Ht). split; [assumption|]. split; [assumption|].
    rewrite (entry_map _ 0%R false H W) by assumption.
    destruct (Rgt_dec _ _); [reflexivity | contradiction].
Qed.

Section Harris.
Context {cv : Cv2} {cvl : Cv2Laws cv}.
Variables (img : array2 Z) (H W w : Z) (k : R).
Hypothesis img_shape : has_shape H W img.
Hypothesis w_pos : 0 < w.

Lemma harris_response_spec :
  exists Sx2 Sy2 Sxy R_map,
    boxFilter (map (map (fun v => v ^ 2)%R) (Sobel img 1 0)) w = Ok Sx2 /\
    boxFilter (map (map (fun v => v ^ 2)%R) (Sobel img 0 1)) w = Ok Sy2 /\
    boxFilter (zip2 Rmult (Sobel img 1 0) (Sobel img 0 1)) w = Ok Sxy /\
    has_shape H W Sx2 /\ has_shape H W Sy2 /\ has_shape H W Sxy /\
    harris_response img w k = Ok R_map /\
    has_shape H W R_map /\
    forall r c, 0 <= r < H -> 0 <= c < W ->
      entry 0%R R_map r c =
      ((entry 0%R Sx2 r c * entry 0%R Sy2 r c - entry 0%R Sxy r c ^ 2)
       - k * (entry 0%R Sx2 r c + entry 0%R Sy2 r c) ^ 2)%R.
Proof.
  pose proof (Sobel_shape H W img 1 0 img_shape) as Sx.
  pose proof (Sobel_shape H W img 0 1 img_shape) as Sy.
  destruct (boxFilter_shape H W (map (map (fun v => v ^ 2)%R) (Sobel img 1 0)) w)
    as (Sx2 & E1 & S1); [now apply has_shape_map | assumption |].
  destruct (boxFilter_shape H W (map (map (fun v => v ^ 2)%R) (Sobel img 0 1)) w)
    as (Sy2 & E2 & S2); [now apply has_shape_map | assumption |].
  destruct (boxFilter_shape H W (zip2 Rmult (Sobel img 1 0) (Sobel img 0 1)) w)
    as (Sxy & E3 & S3); [now apply has_shape_zip2 | assumption |].
  exists Sx2, Sy2, Sxy. eexists.
  unfold harris_response. rewrite E1, E2, E3. cbn [bind].
  refine (conj eq_refl (conj eq_refl (conj eq_refl
            (conj S1 (conj S2 (conj S3 (conj eq_refl (conj _ _)))))))).
  - apply has_shape_zip2; [apply has_shape_zip2; [apply has_shape_zip2|apply has_shape_map]
                          | apply has_shape_map, has_shape_zip2]; assumption.
  - intros r c Hr Hc.
    rewrite (entry_zip2 Rminus 0%R 0%R _ H W); try assumption;
      [| apply has_shape_zip2; [apply has_shape_zip2|apply has_shape_map]; assumption
       | apply has_shape_map, has_shape_zip2; assumption].
    rewrite (entry_zip2 Rminus 0%R 0%R _ H W); try assumption;
      [| apply has_shape_zip2; assumption | apply has_shape_map; assumption].
    rewrite (entry_zip2 Rmult 0%R 0%R _ H W) by assumption.
    rewrite (entry_map _ 0%R 0%R H W) by assumption.
    rewrite (entry_map _ 0%R 0%R H W) by (assumption || now apply has_shape_zip2).
    rewrite (entry_zip2 Rplus 0%R 0%R _ H W) by assumption.
    reflexivity.
Qed.

End Harris.

(** ** All-zero inputs and the reference collaborators *)

(** *** All-zero arrays *)

Lemma entry_zero {A : Type} (z : A) (a : array2 A) (y x : Z) :
  Forall (Forall (eq z)) a -> entry z a y x = z.
Proof.
  intros Hz. unfold entry.
  destruct (nth_in_or_default (Z.to_nat y) a []) as [Hin|E].
  - rewrite Forall_forall in Hz. specialize (Hz _ Hin).
    destruct (nth_in_or_default (Z.to_nat x) (nth (Z.to_nat y) a []) z) as [Hin'|E'];
      [|exact E'].
    rewrite Forall_forall in Hz. symmetry. now apply Hz.
  - rewrite E. now destruct (Z.to_nat x).
Qed.

Lemma all_zero_map (f : R -> R) (a : array2 R) :
  f 0%R = 0%R -> all_zero a -> all_zero (map (map f) a).
Proof.
  intros Hf Hz. unfold all_zero in *. apply Forall_map.
  eapply Forall_impl; [|exact Hz]. intros r Hr. apply Forall_map.
  eapply Forall_impl; [|exact Hr]. intros v <-. now rewrite Hf.
Qed.

Lemma all_zero_zip2 (f : R -> R -> R) (a b : array2 R) :
  f 0%R 0%R = 0%R -> all_zero a -> all_zero b -> all_zero (zip2 f a b).
Proof.
  intros Hf Ha Hb. unfold all_zero, zip2 in *. apply Forall_map, Forall_forall.
  intros [r r'] Hin. cbn [fst snd]. apply Forall_map, Forall_forall.
  intros [u v] Huv. cbn [fst snd].
  rewrite Forall_forall in Ha, Hb.
  pose proof (Ha r (in_combine_l _ _ _ _ Hin)) as Hr.
  pose proof (Hb r' (in_combine_r _ _ _ _ Hin)) as Hr'.
  rewrite Forall_forall in Hr, Hr'.
  rewrite <- (Hr u (in_combine_l _ _ _ _ Huv)), <- (Hr' v (in_combine_r _ _ _ _ Huv)).
  now rewrite Hf.
Qed.

Lemma all_zero_entries (H W : Z) (a : array2 R) :
  has_shape H W a ->
  (forall r c, 0 <= r < H -> 0 <= c < W -> entry 0%R a r c = 0%R) ->
  all_zero a.
Proof.
  intros (HH & HW & Hs & Hr) He. unfold all_zero, shape0 in *.
  apply Forall_forall. intros row Hin.
  destruct (In_nth a row [] Hin) as (i & Hi & <-).
  apply Forall_forall. intros v Hv.
  destruct (In_nth _ v 0%R Hv) as (j & Hj & <-).
  pose proof (rect_nth W a i Hr Hi) as Hlen.
  specialize (He (Z.of_nat i) (Z.of_nat j)). unfold entry in He.
  rewrite !Nat2Z.id in He. symmetry. apply He; lia.
Qed.

Lemma global_max_zero (H W : Z) (a : array2 R) (m : R) :
  all_zero a -> global_max H W a m -> m = 0%R.
Proof.
  intros Hz [(r & c & _ & _ & <-) _]. exact (entry_zero 0%R a r c Hz).
Qed.

Lemma scan_zero (a : array2 R) (H W w : Z) :
  all_zero a -> scan a H W w 0%R = [].
Proof.
  intros Hz. unfold scan.
  assert (Hk : forall y x, keeps a w 0%R y x = false).
  { intros y x. unfold keeps. rewrite (entry_zero 0%R a y x Hz).
    destruct (Rgt_dec 0 0); [lra | reflexivity]. }
  assert (Hrow : forall y xs, map (fun x => (x, y)) (filter (keeps a w 0%R y) xs) = []).
  { intros y xs. induction xs as [|x xs IHx]; [reflexivity|].
    cbn [filter]. now rewrite Hk. }
  induction (Py.range w (H - w)) as [|y ys IH]; [reflexivity|].
  cbn [flat_map]. now rewrite IH, Hrow.
Qed.

Lemma lambda_minus_select_zero (a : array2 R) (H W w : Z) (t : R) :
  has_shape H W a -> all_zero a -> 0 <= w ->
  lambda_minus_select a w t = Ok [].
Proof.
  intros Hs Hz Hw. destruct (np_max_global H W a Hs) as (m & _ & Hg).
  rewrite (select_spec a H W w 0%R Hs Hw t m).
  - now rewrite scan_zero.
  - rewrite (global_max_zero H W a m Hz Hg). lra.
  - assumption.
Qed.

Lemma harris_select_zero (a : array2 R) (H W : Z) (t : R) :
  has_shape H W a -> all_zero a -> harris_select a t = Ok [].
Proof.
  intros Hs Hz. destruct (np_max_global H W a Hs) as (m & _ & Hg).
  destruct (harris_select_spec a H W t m Hs Hg) as (corners & -> & Hin & _).
  destruct corners as [|[r c] corners]; [reflexivity|]. exfalso.
  destruct (proj1 (Hin r c) (or_introl eq_refl)) as (_ & _ & Hgt).
  rewrite (entry_zero 0%R a r c Hz), (global_max_zero H W a m Hz Hg) in Hgt. lra.
Qed.

(** *** The reference instance satisfies the laws *)

Lemma range0_length (n : Z) : Z.of_nat (length (Py.range 0 n)) = Z.max 0 n.
Proof. rewrite range_length. lia. Qed.

Lemma grid_shape {A : Type} (f : Z -> Z -> A) (H W : Z) :
  0 < H -> 0 < W ->
  has_shape H W (map (fun y => map (fun x => f y x) (Py.range 0 W)) (Py.range 0 H)).
Proof.
  intros HH HW. unfold has_shape, shape0, rect.
  rewrite length_map, range0_length. repeat split; try lia.
  apply Forall_map, Forall_forall. intros y _. rewrite length_map, range0_length. lia.
Qed.

Lemma grid_zero (f : Z -> Z -> R) (H W : Z) :
  (forall y x, f y x = 0%R) ->
  all_zero (map (fun y => map (fun x => f y x) (Py.range 0 W)) (Py.range 0 H)).
Proof.
  intros Hf. unfold all_zero. apply Forall_map, Forall_forall. intros y _.
  apply Forall_map, Forall_forall. intros x _. now rewrite Hf.
Qed.

Lemma Rsum_zero (l : list R) : Forall (eq 0%R) l -> Rsum l = 0%R.
Proof.
  induction 1 as [|v l <- _ IH]; cbn; [reflexivity|]. unfold Rsum in IH. rewrite IH. lra.
Qed.

#[export] Instance reference_cv_laws : Cv2Laws Reference.cv.
Proof.
  constructor.
  - reflexivity.
  - intros H W a dx dy Hs. cbn [Sobel Reference.cv]. unfold Reference.Sobel3.
    destruct (has_shape_dims H W a Hs) as [-> ->].
    destruct Hs as (HH & HW & _). now apply grid_shape.
  - intros a dx dy Hz. cbn [Sobel Reference.cv]. unfold Reference.Sobel3.
    apply grid_zero. intros y x.
    assert (Hs : forall u v, Reference.sample a u v = 0%R)
      by (intros u v; unfold Reference.sample; now rewrite entry_zero).
    destruct dx as [|[|dx]], dy as [|[|dy]]; cbn beta iota; rewrite ?Hs; lra.
  - intros H W a w Hs Hw. cbn [boxFilter Reference.cv]. unfold Reference.box_mean.
    destruct (Z.leb_spec w 0); [lia|]. eexists. split; [reflexivity|].
    destruct (has_shape_dims H W a Hs) as [-> ->].
    destruct Hs as (HH & HW & _). now apply grid_shape.
  - intros a w b Hz. cbn [boxFilter Reference.cv]. unfold Reference.box_mean.
    destruct (w <=? 0); [discriminate|]. intros [= <-].
    apply grid_zero. intros y x. rewrite Rsum_zero; [unfold Rdiv; ring|].
    apply Forall_forall. intros v Hv. apply in_flat_map in Hv.
    destruct Hv as (dy & _ & Hv). apply in_map_iff in Hv. destruct Hv as (dx & <- & _).
    unfold Reference.sampleR. symmetry. now apply entry_zero.
Qed.

#[export] Instance reference_la_laws : LinAlgLaws Reference.la.
Proof.
  constructor. intros a b d. cbn [eig Reference.la Reference.eig2 fst snd].
  set (s := sqrt ((a + d) * (a + d) - 4 * (a * d - b * b))).
  assert (Hd : (0 <= (a + d) * (a + d) - 4 * (a * d - b * b))%R).
  { replace ((a + d) * (a + d) - 4 * (a * d - b * b))%R
      with (Rsqr (a - d) + 4 * Rsqr b)%R by (unfold Rsqr; ring).
    pose proof (Rle_0_sqr (a - d)). pose proof (Rle_0_sqr b). lra. }
  pose proof (sqrt_sqrt _ Hd) as Hs. fold s in Hs. split; [lra|].
  replace ((a + d + s) / 2 * ((a + d - s) / 2))%R
    with (((a + d) * (a + d) - s * s) / 4)%R by field.
  rewrite Hs. field.
Qed.

(** ** The detectors *)

(** C3.  On every [H x W] colour image and for every positive window
    size [w], the Harris detector computes
    [R = (Sx2 Sy2 - Sxy^2) - k (Sx2 + Sy2)^2] at each pixel, where [Sx2],
    [Sy2] and [Sxy] are the box-filtered [Ix^2], [Iy^2] and [Ix Iy], and
    returns exactly the pixels whose [R] is strictly greater than [t]
    times the global maximum of [R]: every pixel of the image is
    eligible (no border is excluded, no window is compared), and the
    result lists [(row, column)] pairs in row-major order. *)
Theorem harris_corner_detection_spec
  {cv : Cv2} {cvl : Cv2Laws cv}
  (px : array2 (list Z)) (H W w : Z) (k t : R) :
  bgr_image H W (Img3D px) -> 0 < w ->
  let Ix := Sobel (to_gray px) 1 0 in
  let Iy := Sobel (to_gray px) 0 1 in
  exists Sx2 Sy2 Sxy R_map gmax corners,
    boxFilter (map (map (fun v => v ^ 2)%R) Ix) w = Ok Sx2 /\
    boxFilter (map (map (fun v => v ^ 2)%R) Iy) w = Ok Sy2 /\
    boxFilter (zip2 Rmult Ix Iy) w = Ok Sxy /\
    harris_response (to_gray px) w k = Ok R_map /\
    (forall r c, 0 <= r < H -> 0 <= c < W ->
       entry 0%R R_map r c =
       ((entry 0%R Sx2 r c * entry 0%R Sy2 r c - entry 0%R Sxy r c ^ 2)
        - k * (entry 0%R Sx2 r c + entry 0%R Sy2 r c) ^ 2)%R) /\
    global_max H W R_map gmax /\
    harris_corner_detection (Img3D px) w k t = Ok corners /\
    (forall r c, In (r, c) corners <->
       0 <= r < H /\ 0 <= c < W /\ (entry 0%R R_map r c > t * gmax)%R) /\
    StronglySorted row_major corners.
Proof.
  intros Himg Hw Ix Iy.
  pose proof (has_shape_to_gray H W px Himg) as Hg.
  destruct (harris_response_spec (to_gray px) H W w k Hg Hw)
    as (Sx2 & Sy2 & Sxy & R_map & E1 & E2 & E3 & _ & _ & _ & ER & HR & Hentry).
  destruct (np_max_global H W R_map HR) as (gmax & _ & Hgmax).
  destruct (harris_select_spec R_map H W t gmax HR Hgmax) as (corners & Hsel & Hin & Hsorted).
  exists Sx2, Sy2, Sxy, R_map, gmax, corners.
  repeat (split; [assumption|]). split; [|split; assumption].
  unfold harris_corner_detection. rewrite (cvtColor_bgr H W px Himg). cbn [bind].
  rewrite ER. cbn [bind]. exact Hsel.
Qed.

(** *** Black images *)

Lemma to_gray_black {cv : Cv2} {cvl : Cv2Laws cv} (px : array2 (list Z)) :
  Forall (Forall (Forall (eq 0))) px -> Forall (Forall (eq 0)) (to_gray px).
Proof.
  intros Hz. unfold to_gray. apply Forall_map.
  eapply Forall_impl; [|exact Hz]. intros r Hr. apply Forall_map.
  eapply Forall_impl; [|exact Hr]. intros p Hp. unfold gray_pixel.
  assert (Hn : forall i, nth i p 0 = 0).
  { intros i. destruct (nth_in_or_default i p 0) as [Hin|E]; [|exact E].
    rewrite Forall_forall in Hp. symmetry. now apply Hp. }
  rewrite !Hn. symmetry. apply bgr2gray_black.
Qed.

Lemma harris_response_black {cv : Cv2} {cvl : Cv2Laws cv}
  (img : array2 Z) (H W w : Z) (k : R) :
  has_shape H W img -> 0 < w -> Forall (Forall (eq 0)) img ->
  exists R_map,
    harris_response img w k = Ok R_map /\ has_shape H W R_map /\ all_zero R_map.
Proof.
  intros Hs Hw Hz.
  destruct (harris_response_spec img H W w k Hs Hw)
    as (Sx2 & Sy2 & Sxy & R_map & E1 & E2 & E3 & _ & _ & _ & ER & HR & Hentry).
  exists R_map. split; [assumption|]. split; [assumption|].
  pose proof (Sobel_zero img 1 0 Hz) as Zx. pose proof (Sobel_zero img 0 1 Hz) as Zy.
  assert (Z1 : all_zero Sx2).
  { apply (boxFilter_zero _ w Sx2) in E1; [assumption|]. apply all_zero_map; [lra | assumption]. }
  assert (Z2 : all_zero Sy2).
  { apply (boxFilter_zero _ w Sy2) in E2; [assumption|]. apply all_zero_map; [lra | assumption]. }
  assert (Z3 : all_zero Sxy).
  { apply (boxFilter_zero _ w Sxy) in E3; [assumption|]. apply all_zero_zip2; [lra | assumption..]. }
  apply (all_zero_entries H W); [assumption|]. intros r c Hr Hc.
  rewrite (Hentry r c Hr Hc).
  rewrite (entry_zero 0%R Sx2 r c Z1), (entry_zero 0%R Sy2 r c Z2), (entry_zero 0%R Sxy r c Z3).
  ring.
Qed.

Lemma lambda_minus_response_black
  {cv : Cv2} {cvl : Cv2Laws cv} {la : LinAlg} {lal : LinAlgLaws la}
  (img : array2 Z) (H W : Z) :
  has_shape H W img -> Forall (Forall (eq 0)) img ->
  all_zero (lambda_minus_response img).
Proof.
  intros Hs Hz. apply (all_zero_entries H W).
  - now apply lambda_minus_response_shape.
  - intros y x Hy Hx. rewrite (lambda_minus_response_entry img H W Hs y x Hy Hx).
    unfold tensor.
    rewrite (entry_zero 0%R _ y x (Sobel_zero img 1 0 Hz)),
            (entry_zero 0%R _ y x (Sobel_zero img 0 1 Hz)).
    destruct (eig_symmetric (0 * 0) (0 * 0) (0 * 0))%R as [Hsum Hprod].
    unfold Rmin. destruct (Rle_dec _ _); nra.
Qed.

Lemma lambda_minus_black_image
  {cv : Cv2} {cvl : Cv2Laws cv} {la : LinAlg} {lal : LinAlgLaws la}
  (px : array2 (list Z)) (H W w : Z) (t : R) :
  bgr_image H W (Img3D px) -> Forall (Forall (Forall (eq 0))) px -> 0 <= w ->
  lambda_minus_corner_detection (Img3D px) w t = Ok [].
Proof.
  intros Himg Hz Hw.
  pose proof (has_shape_to_gray H W px Himg) as Hg.
  unfold lambda_minus_corner_detection. rewrite (cvtColor_bgr H W px Himg). cbn [bind].
  apply (lambda_minus_select_zero _ H W); [| |assumption].
  - now apply lambda_minus_response_shape.
  - apply (lambda_minus_response_black _ H W); [assumption | now apply to_gray_black].
Qed.

Lemma harris_black_image
  {cv : Cv2} {cvl : Cv2Laws cv}
  (px : array2 (list Z)) (H W w : Z) (k t : R) :
  bgr_image H W (Img3D px) -> Forall (Forall (Forall (eq 0))) px -> 0 < w ->
  harris_corner_detection (Img3D px) w k t = Ok [].
Proof.
  intros Himg Hz Hw.
  pose proof (has_shape_to_gray H W px Himg) as Hg.
  destruct (harris_response_black (to_gray px) H W w k Hg Hw (to_gray_black px Hz))
    as (R_map & ER & HR & HRz).
  unfold harris_corner_detection. rewrite (cvtColor_bgr H W px Himg). cbn [bind].
  rewrite ER. cbn [bind]. now apply (harris_select_zero _ H W).
Qed.

(** C8.  On an all-zero image both response maps are all zero and both
    detectors return the empty corner list (window size [w >= 0] for
    lambda-minus, [w' > 0] for Harris). *)
Theorem black_image_no_corners
  {cv : Cv2} {cvl : Cv2Laws cv} {la : LinAlg} {lal : LinAlgLaws la}
  (px : array2 (list Z)) (H W w w' : Z) (k t t' : R) :
  bgr_image H W (Img3D px) -> Forall (Forall (Forall (eq 0))) px ->
  0 <= w -> 0 < w' ->
  all_zero (lambda_minus_response (to_gray px)) /\
  lambda_minus_corner_detection (Img3D px) w t = Ok [] /\
  (exists R_map, harris_response (to_gray px) w' k = Ok R_map /\ all_zero R_map) /\
  harris_corner_detection (Img3D px) w' k t' = Ok [].
Proof.
  intros Himg Hz Hw Hw'.
  pose proof (has_shape_to_gray H W px Himg) as Hg.
  pose proof (to_gray_black px Hz) as Hgz.
  destruct (harris_response_black (to_gray px) H W w' k Hg Hw' Hgz) as (R_map & ER & _ & HRz).
  split; [|split; [|split]].
  - now apply (lambda_minus_response_black _ H W).
  - now apply (lambda_minus_black_image px H W).
  - now exists R_map.
  - now apply (harris_black_image px H W).
Qed.

(** *** Colour conversion inside the detectors *)

Lemma lambda_minus_runs
  {cv : Cv2} {cvl : Cv2Laws cv} {la : LinAlg}
  (img : array2 Z) (H W w : Z) (t : R) :
  has_shape H W img -> 0 <= w ->
  exists corners, lambda_minus_select (lambda_minus_response img) w t = Ok corners.
Proof.
  intros Hs Hw. pose proof (lambda_minus_response_shape img H W Hs) as Hl.
  destruct (np_max_global H W _ Hl) as (gmax & _ & Hg).
  eexists. now apply (select_spec _ H W w (t * gmax)%R Hl Hw t gmax).
Qed.

(** C7, as the code behaves.  Both detectors reject a single-channel image with
    the error of the colour conversion; a three-channel image is
    converted to grayscale by the detector itself, and the detector
    then returns what its later stages compute on the converted image. *)
Theorem detectors_convert_to_gray
  {cv : Cv2} {cvl : Cv2Laws cv} {la : LinAlg}
  (gray : array2 Z) (px : array2 (list Z)) (H W w : Z) (k t : R) :
  bgr_image H W (Img3D px) -> 0 < w ->
  (lambda_minus_corner_detection (Img2D gray) w t = Raise cv2_error /\
   harris_corner_detection (Img2D gray) w k t = Raise cv2_error) /\
  cvtColor_BGR2GRAY (Img3D px) = Ok (to_gray px) /\
  (exists corners,
     lambda_minus_corner_detection (Img3D px) w t = Ok corners /\
     lambda_minus_select (lambda_minus_response (to_gray px)) w t = Ok corners) /\
  (exists R_map corners,
     harris_corner_detection (Img3D px) w k t = Ok corners /\
     harris_response (to_gray px) w k = Ok R_map /\
     harris_select R_map t = Ok corners).
Proof.
  intros Himg Hw.
  pose proof (has_shape_to_gray H W px Himg) as Hg.
  split; [|split; [|split]].
  - unfold lambda_minus_corner_detection, harris_corner_detection.
    rewrite cvtColor_gray. split; reflexivity.
  - exact (cvtColor_bgr H W px Himg).
  - destruct (lambda_minus_runs (to_gray px) H W w t Hg) as (corners & Hc); [lia|].
    exists corners. split; [|assumption].
    unfold lambda_minus_corner_detection. now rewrite (cvtColor_bgr H W px Himg).
  - destruct (harris_response_spec (to_gray px) H W w k Hg Hw)
      as (_ & _ & _ & R_map & _ & _ & _ & _ & _ & _ & ER & HR & _).
    destruct (np_max_global H W R_map HR) as (gmax & _ & Hgmax).
    destruct (harris_select_spec R_map H W t gmax HR Hgmax) as (corners & Hsel & _).
    exists R_map, corners. split; [|split; assumption].
    unfold harris_corner_detection. rewrite (cvtColor_bgr H W px Himg). cbn [bind].
    rewrite ER. exact Hsel.
Qed.

(** ** The matcher on concrete descriptors *)

(** *** Scores *)

Lemma xlt_Fin_true (x y : R) : (x < y)%R -> xlt (Fin x) (Fin y) = true.
Proof. intros Hlt. cbn. destruct (Rlt_dec x y); [reflexivity | contradiction]. Qed.

Lemma xlt_Fin_false (x y : R) : (y <= x)%R -> xlt (Fin x) (Fin y) = false.
Proof. intros Hle. cbn. destruct (Rlt_dec x y); [lra | reflexivity]. Qed.

Lemma xlt_Fin_PInf (x : R) : xlt (Fin x) PInf = true.
Proof. reflexivity. Qed.

Lemma xdiv_Fin (c n : R) : n <> 0%R -> xdiv c n = Fin (c / n).
Proof. intros Hn. unfold xdiv. destruct (Req_dec_T n 0); [contradiction | reflexivity]. Qed.

Lemma norm_singleton (x : R) : norm (dt := float64) [x] = Rabs x.
Proof.
  unfold norm. cbn [map Rsum fold_right to_R float64].
  rewrite Rplus_0_r. apply sqrt_Rsqr_abs.
Qed.

Ltac eval_loop :=
  cbn [for_each bind fst snd match_step best_match match_features
       is_SSD String.eqb Ascii.eqb Bool.eqb
       broadcast2 length Nat.eqb map combine app].

(** C4 does not hold of the code.  Under NCC the score of the descriptors
    [[1.0]] and [[-1.0]] is [-1], the value the best score starts from;
    it does not replace it, and the only descriptor of the second set is
    not chosen: the partner is [None]. *)
Theorem ncc_opposite_descriptor_unmatched :
  match_features (dt := float64) [[1%R]] [[(-1)%R]] "NCC" = Ok [(0, None)].
Proof.
  unfold match_features, best_match.
  change (enumerate [[1%R]]) with [(0, [1%R])].
  change (enumerate [[(-1)%R]]) with [(0, [(-1)%R])].
  eval_loop. rewrite !norm_singleton.
  unfold np_sum. cbn [map Rsum fold_right to_R float64 mul].
  replace (Rabs 1) with 1%R by (unfold Rabs; destruct (Rcase_abs _); lra).
  replace (Rabs (-1)) with 1%R by (unfold Rabs; destruct (Rcase_abs _); lra).
  rewrite xdiv_Fin by lra. unfold xgt.
  rewrite xlt_Fin_false by lra. reflexivity.
Qed.

(** C6 does not hold of the code.  Under NCC the second set [[-3.0]] is not
    empty, yet the first descriptor [[2.0]] gets no partner. *)
Theorem ncc_nonempty_set_without_partner :
  match_features (dt := float64) [[2%R]; [(-2)%R]] [[(-3)%R]] "NCC"
  = Ok [(0, None); (1, Some 0)].
Proof.
  unfold match_features, best_match.
  change (enumerate [[2%R]; [(-2)%R]]) with [(0, [2%R]); (1, [(-2)%R])].
  change (enumerate [[(-3)%R]]) with [(0, [(-3)%R])].
  eval_loop. rewrite !norm_singleton.
  unfold np_sum. cbn [map Rsum fold_right to_R float64 mul].
  replace (Rabs 2) with 2%R by (unfold Rabs; destruct (Rcase_abs _); lra).
  replace (Rabs (-2)) with 2%R by (unfold Rabs; destruct (Rcase_abs _); lra).
  replace (Rabs (-3)) with 3%R by (unfold Rabs; destruct (Rcase_abs _); lra).
  rewrite !xdiv_Fin by lra. unfold xgt.
  rewrite xlt_Fin_false by lra. cbn [bind fst app].
  rewrite xlt_Fin_true by lra. reflexivity.
Qed.

(** C9 does not hold of the code.  Take two distinct 8-bit descriptors, all 16
    and all 0: their differences are 16 and 240, whose squares are 0
    modulo 256, so every score is 0 and both descriptors are paired with
    index 0. *)
Theorem ssd_self_match_wraps_uint8 :
  match_features (dt := uint8)
    [[16; 16; 16; 16]; [0; 0; 0; 0]] [[16; 16; 16; 16]; [0; 0; 0; 0]] "SSD"
  = Ok [(0, Some 0); (1, Some 0)].
Proof.
  unfold match_features, best_match.
  change (enumerate [[16; 16; 16; 16]; [0; 0; 0; 0]])
    with [(0, [16; 16; 16; 16]); (1, [0; 0; 0; 0])].
  eval_loop. unfold np_sum. cbn [map Rsum fold_right to_R uint8 mul sub].
  change ((16 - 16) mod 256) with 0. change ((16 - 0) mod 256) with 16.
  change ((0 - 16) mod 256) with 240. change ((0 - 0) mod 256) with 0.
  change (0 * 0 mod 256) with 0. change (16 * 16 mod 256) with 0.
  change (240 * 240 mod 256) with 0.
  rewrite !xlt_Fin_PInf. cbn [bind for_each snd fst].
  rewrite !xlt_Fin_false by lra. cbn [bind for_each snd fst app]. reflexivity.
Qed.

(** ** The matcher in general *)

(** *** What the matcher does on descriptors of one length *)

Lemma for_each_app {A S : Type} (body : S -> A -> result S) (l1 l2 : list A) (s : S) :
  for_each (l1 ++ l2) body s = (s' <- for_each l1 body s ;; for_each l2 body s').
Proof.
  revert s. induction l1 as [|x l1 IH]; intros s; cbn [app for_each bind]; [reflexivity|].
  destruct (body s x); cbn [bind]; [apply IH | reflexivity].
Qed.

Lemma range_snoc (k : Z) : 0 <= k -> Py.range 0 (k + 1) = Py.range 0 k ++ [k].
Proof.
  intros Hk. unfold Py.range. rewrite !Z.sub_0_r.
  replace (Z.to_nat (k + 1)) with (Z.to_nat k + 1)%nat by lia.
  rewrite seq_app, map_app. cbn [seq map Nat.add]. do 2 f_equal. lia.
Qed.

Lemma broadcast2_same {A : Type} (f : A -> A -> A) (u v : list A) :
  length u = length v ->
  broadcast2 f u v = Ok (map (fun ab => f (fst ab) (snd ab)) (combine u v)).
Proof. intros E. unfold broadcast2. now rewrite E, Nat.eqb_refl. Qed.

Lemma Forall2_in_r {A B : Type} (R : A -> B -> Prop) (l1 : list A) (l2 : list B) (b : B) :
  Forall2 R l1 l2 -> In b l2 -> exists a, In a l1 /\ R a b.
Proof.
  induction 1 as [|a b' l1 l2 Hab _ IH]; intros Hin; [destruct Hin|].
  destruct Hin as [->|Hin].
  - exists a. split; [now left | assumption].
  - destruct (IH Hin) as (a' & Ha' & HR). exists a'. split; [now right | assumption].
Qed.

Lemma for_each_collect {X Y E : Type} (f : X -> result Y) (g : X -> Y -> E)
  (Q : X -> Y -> Prop) (xs : list X) :
  Forall (fun x => exists y, f x = Ok y /\ Q x y) xs ->
  forall acc,
  exists l,
    for_each xs (fun acc x => y <- f x ;; Ok (acc ++ [g x y])) acc = Ok (acc ++ l) /\
    Forall2 (fun x e => exists y, e = g x y /\ Q x y) xs l.
Proof.
  induction 1 as [|x xs (y & Hy & HQ) _ IH]; intros acc.
  - exists []. cbn. now rewrite app_nil_r.
  - cbn [for_each]. rewrite Hy. cbn [bind].
    destruct (IH (acc ++ [g x y])) as (l & -> & Hl).
    exists (g x y :: l). split; [now rewrite <- app_assoc|].
    constructor; [now exists y | assumption].
Qed.

Lemma enumerate_fst {A : Type} (l : list A) :
  map fst (enumerate l) = Py.range 0 (Z.of_nat (length l)).
Proof.
  destruct l as [|a l]; [reflexivity|].
  rewrite (enumerate_nth a), map_map. cbn [fst]. apply map_id.
Qed.

Section MatcherFacts.
Context {A : Type} {dt : DType A}.
Variables (n : nat) (method : string).

Lemma match_step_SSD (d1 d2 : list A) (best : option Z * xreal) (j : Z) :
  is_SSD method = true -> length d1 = length d2 ->
  match_step method d1 best (j, d2) =
  Ok (if xlt (Fin (ssd d1 d2)) (snd best) then (Some j, Fin (ssd d1 d2)) else best).
Proof.
  intros Hm E. unfold match_step. rewrite Hm, (broadcast2_same sub d1 d2 E). cbn [bind].
  fold (ssd d1 d2). now destruct (xlt _ _).
Qed.

Lemma match_step_ok (d1 d2 : list A) (best : option Z * xreal) (j : Z) :
  length d1 = length d2 ->
  exists best', match_step method d1 best (j, d2) = Ok best' /\
    (best' = best \/ fst best' = Some j).
Proof.
  intros E. unfold match_step.
  rewrite (broadcast2_same sub d1 d2 E), (broadcast2_same mul d1 d2 E). cbn [bind].
  destruct (is_SSD method); destruct (_ : bool); eexists; (split; [reflexivity|]); auto.
Qed.

(** The scan of [descriptors2] never raises, and its result is
    [None] or an index into [descriptors2]. *)
Lemma scan_ok (d1 : list A) (ds : list (list A)) (js : list Z) :
  length d1 = n -> uniform n ds -> length js = length ds ->
  forall best,
  exists best',
    for_each (combine js ds) (match_step method d1) best = Ok best' /\
    (fst best' = fst best \/ exists j, fst best' = Some j /\ In j js).
Proof.
  intros Hd Hu. revert js. induction Hu as [|d2 ds Hd2 _ IH]; intros js Hlen best.
  - destruct js; cbn; eauto.
  - destruct js as [|j js]; [discriminate|]. cbn [combine for_each].
    destruct (match_step_ok d1 d2 best j) as (b1 & -> & Hb1); [congruence|]. cbn [bind].
    destruct (IH js ltac:(cbn in Hlen; lia) b1) as (b2 & -> & Hb2).
    exists b2. split; [reflexivity|].
    destruct Hb2 as [E2|(j' & E2 & Hj')].
    + rewrite E2. destruct Hb1 as [->|E1]; [now left|].
      right. exists j. split; [assumption | now left].
    + right. exists j'. split; [assumption | now right].
Qed.

Lemma best_match_ok (d1 : list A) (ds : list (list A)) :
  length d1 = n -> uniform n ds ->
  exists best,
    best_match method d1 ds = Ok best /\
    (fst best = None \/ exists j, fst best = Some j /\ 0 <= j < Z.of_nat (length ds)).
Proof.
  intros Hd Hu. unfold best_match, enumerate.
  destruct (scan_ok d1 ds (Py.range 0 (Z.of_nat (length ds))) Hd Hu
              (ltac:(rewrite range_length; lia))
              (None, if is_SSD method then PInf else Fin (-1))) as (best & -> & Hb).
  exists best. split; [reflexivity|]. destruct Hb as [E|(j & E & Hj)]; [now left|].
  right. exists j. split; [assumption | now apply range_In in Hj].
Qed.

Lemma best_match_empty (d1 : list A) :
  best_match method d1 [] = Ok (None, if is_SSD method then PInf else Fin (-1)).
Proof. reflexivity. Qed.

(** Under SSD the scan keeps the first of the least scores. *)
Lemma best_match_SSD (d1 : list A) (ds : list (list A)) :
  is_SSD method = true -> length d1 = n -> uniform n ds -> ds <> [] ->
  exists j,
    best_match method d1 ds = Ok (Some j, Fin (ssd d1 (nth (Z.to_nat j) ds []))) /\
    first_least d1 ds (Z.of_nat (length ds)) j.
Proof.
  intros Hm Hd Hu Hne. unfold best_match. rewrite Hm.
  rewrite (enumerate_nth [] ds).
  assert (Hinv : forall k : nat, (0 < k <= length ds)%nat ->
    exists j,
      for_each (map (fun i => (i, nth (Z.to_nat i) ds [])) (Py.range 0 (Z.of_nat k)))
               (match_step method d1) (None, PInf)
      = Ok (Some j, Fin (ssd d1 (nth (Z.to_nat j) ds []))) /\
      first_least d1 ds (Z.of_nat k) j).
  { induction k as [|k IH]; intros Hk; [lia|].
    replace (Z.of_nat (S k)) with (Z.of_nat k + 1) by lia.
    rewrite range_snoc, map_app, for_each_app by lia. cbn [map for_each].
    assert (Hlen : length d1 = length (nth k ds [])).
    { rewrite Hd. unfold uniform in Hu. rewrite Forall_forall in Hu.
      symmetry. apply Hu, nth_In. lia. }
    rewrite Nat2Z.id.
    destruct k as [|k].
    - cbn [Z.of_nat Py.range]. change (Py.range 0 0) with (@nil Z).
      cbn [map for_each bind]. rewrite match_step_SSD by assumption.
      cbn [snd xlt bind]. exists 0. split; [reflexivity|].
      unfold first_least. repeat split; try lia.
      intros j' Hj'. replace j' with 0 by lia. cbn. lra.
    - destruct IH as (j & -> & Hj & Hmin & Hfirst); [lia|]. cbn [bind].
      rewrite match_step_SSD by assumption. cbn [snd bind].
      destruct (Rlt_dec (ssd d1 (nth (S k) ds [])) (ssd d1 (nth (Z.to_nat j) ds [])))
        as [Hlt|Hge].
      + rewrite xlt_Fin_true by assumption. exists (Z.of_nat (S k)).
        rewrite Nat2Z.id. split; [reflexivity|].
        unfold first_least. rewrite Nat2Z.id. repeat split; try lia.
        * intros j' Hj'. destruct (Z.eq_dec j' (Z.of_nat (S k))) as [->|Hne'].
          -- rewrite Nat2Z.id. lra.
          -- specialize (Hmin j' ltac:(lia)). lra.
        * intros j' Hj'. specialize (Hmin j' ltac:(lia)). lra.
      + rewrite xlt_Fin_false by lra. exists j. split; [reflexivity|].
        unfold first_least. repeat split; try lia; [|assumption].
        intros j' Hj'. destruct (Z.eq_dec j' (Z.of_nat (S k))) as [->|Hne'].
        * rewrite Nat2Z.id. lra.
        * apply Hmin. lia. }
  destruct ds as [|d ds]; [congruence|].
  apply Hinv. cbn [length]. lia.
Qed.

(** The outer loop: one entry per descriptor of [descriptors1], in
    order. *)
Lemma match_features_each (Q : Z * list A -> option Z -> Prop)
  (ds1 ds2 : list (list A)) :
  Forall (fun id => exists best, best_match method (snd id) ds2 = Ok best /\ Q id (fst best))
         (enumerate ds1) ->
  exists matches,
    match_features ds1 ds2 method = Ok matches /\
    Forall2 (fun id e => fst e = fst id /\ Q id (snd e)) (enumerate ds1) matches.
Proof.
  intros Hall. unfold match_features.
  destruct (for_each_collect
              (fun id => best_match method (snd id) ds2)
              (fun id best => (fst id, fst best))
              (fun id best => Q id (fst best)) (enumerate ds1) Hall [])
    as (l & Hrun & HQ).
  exists l. split; [exact Hrun|].
  eapply Forall2_impl; [|exact HQ]. intros id e (best & -> & Hq). now split.
Qed.

Lemma matches_indices (Q : Z * list A -> option Z -> Prop)
  (ds1 : list (list A)) (matches : list (Z * option Z)) :
  Forall2 (fun id e => fst e = fst id /\ Q id (snd e)) (enumerate ds1) matches ->
  map fst matches = Py.range 0 (Z.of_nat (length ds1)).
Proof.
  intros HQ. rewrite <- (enumerate_fst ds1).
  induction HQ as [|id e ids es [E _] _ IH]; [reflexivity|].
  cbn [map]. now rewrite E, IH.
Qed.

(** One entry per descriptor of the first set, in its order; no
    partner when the second set is empty; under SSD a partner inside
    a non-empty second set. *)
Lemma match_features_entries (ds1 ds2 : list (list A)) :
  uniform n ds1 -> uniform n ds2 ->
  exists matches,
    match_features ds1 ds2 method = Ok matches /\
    map fst matches = Py.range 0 (Z.of_nat (length ds1)) /\
    (ds2 = [] -> Forall (fun e => snd e = None) matches) /\
    (is_SSD method = true -> ds2 <> [] ->
     Forall (fun e => exists j, snd e = Some j /\ 0 <= j < Z.of_nat (length ds2)) matches).
Proof.
  intros H1 H2.
  destruct (match_features_each
              (fun _ o =>
                 (ds2 = [] -> o = None) /\
                 (is_SSD method = true -> ds2 <> [] ->
                  exists j, o = Some j /\ 0 <= j < Z.of_nat (length ds2)))
              ds1 ds2) as (matches & Hrun & HQ).
  - apply Forall_forall. intros [i d] Hin. cbn [snd].
    assert (Hd : length d = n).
    { unfold uniform in H1. rewrite Forall_forall in H1.
      apply H1. unfold enumerate in Hin. now apply in_combine_r in Hin. }
    destruct ds2 as [|d2 ds2].
    + rewrite best_match_empty. eexists. split; [reflexivity|]. split; [reflexivity|congruence].
    + destruct (is_SSD method) eqn:Hm.
      * destruct (best_match_SSD d (d2 :: ds2) Hm Hd H2) as (j & -> & Hj & _); [discriminate|].
        eexists. split; [reflexivity|]. split; [discriminate|]. intros _ _. now exists j.
      * destruct (best_match_ok d (d2 :: ds2) Hd H2) as (best & -> & _).
        eexists. split; [reflexivity|]. split; [discriminate | discriminate].
  - exists matches. split; [assumption|].
    split; [exact (matches_indices
                     (fun _ o =>
                        (ds2 = [] -> o = None) /\
                        (is_SSD method = true -> ds2 <> [] ->
                         exists j, o = Some j /\ 0 <= j < Z.of_nat (length ds2)))
                     ds1 matches HQ)|].
    split; intros; apply Forall_forall; intros e He;
      destruct (Forall2_in_r _ _ _ _ HQ He) as (d & _ & _ & [Hn Hs]); auto.
Qed.

(** Under SSD every descriptor of the first set is paired with the
    first descriptor of the second set that has the least score. *)
Lemma match_features_SSD_least (ds1 ds2 : list (list A)) :
  is_SSD method = true -> uniform n ds1 -> uniform n ds2 -> ds2 <> [] ->
  exists matches,
    match_features ds1 ds2 method = Ok matches /\
    Forall2 (fun id e =>
               fst e = fst id /\
               exists j, snd e = Some j /\
                         first_least (snd id) ds2 (Z.of_nat (length ds2)) j)
            (enumerate ds1) matches.
Proof.
  intros Hm H1 H2 Hne.
  apply (match_features_each
           (fun id o => exists j, o = Some j /\
                                  first_least (snd id) ds2 (Z.of_nat (length ds2)) j)).
  apply Forall_forall. intros [i d] Hin. cbn [snd].
  assert (Hd : length d = n).
  { unfold uniform in H1. rewrite Forall_forall in H1.
    apply H1. unfold enumerate in Hin. now apply in_combine_r in Hin. }
  destruct (best_match_SSD d ds2 Hm Hd H2 Hne) as (j & -> & Hj).
  eexists. split; [reflexivity|]. now exists j.
Qed.

End MatcherFacts.

(** *** Real-valued descriptors *)






Lemma Forall2_map_eq {A B : Type} (P : A -> B -> Prop) (h : A -> B)
  (l1 : list A) (l2 : list B) :
  Forall2 P l1 l2 -> (forall a b, In a l1 -> P a b -> b = h a) -> l2 = map h l1.
Proof.
  induction 1 as [|a b l1 l2 Hab _ IH]; intros Hh; [reflexivity|].
  cbn [map]. f_equal.
  - apply Hh; [now left | assumption].
  - apply IH. intros a' b' Ha'. apply Hh. now right.
Qed.


(** ** The extractor on a colour image *)

Lemma unclipped_inside (H W p x y : Z) :
  Z.even p = true -> 0 <= p ->
  p / 2 <= x -> x + p / 2 <= W -> p / 2 <= y -> y + p / 2 <= H ->
  unclipped H W p (x, y) = true.
Proof.
  intros Hev Hp Hx Hx' Hy Hy'.
  apply Zeven_bool_iff, Zeven_div2 in Hev. rewrite Z.div2_div in Hev.
  unfold unclipped, span, window_lo, window_hi. cbn [fst snd].
  apply andb_true_iff. split; apply Z.eqb_eq; lia.
Qed.

Lemma unclipped_near_border (H W p x y : Z) :
  0 < p -> 0 <= x -> 0 <= y ->
  x <= p / 2 - 1 \/ W - x <= p / 2 - 1 \/ y <= p / 2 - 1 \/ H - y <= p / 2 - 1 ->
  unclipped H W p (x, y) = false.
Proof.
  intros Hp Hx Hy Hnear.
  assert (Hhalf : 2 * (p / 2) <= p) by (apply Z.mul_div_le; lia).
  unfold unclipped, span, window_lo, window_hi. cbn [fst snd].
  apply andb_false_iff.
  destruct Hnear as [Hn|[Hn|[Hn|Hn]]];
    [right | right | left | left]; apply Z.eqb_neq; lia.
Qed.

(** C5.  On every [H x W] colour image, for every even positive patch
    size [p] and every list of corners with non-negative coordinates,
    the extractor returns, in the order of the corners, the row-major
    samples of the window
    [[max 0 (x - p/2), min W (x + p/2)) x [max 0 (y - p/2), min H (y + p/2))]
    of each corner whose window is exactly [p x p], and nothing for the
    others.  Every descriptor has [p * p] entries.  A corner with
    [p/2 <= x <= W - p/2] and [p/2 <= y <= H - p/2] is kept; a corner
    with [x], [y], [W - x] or [H - y] at most [p/2 - 1] is dropped. *)
Theorem extract_feature_descriptors_spec
  {cv : Cv2} (px : array2 (list Z)) (H W p : Z) (corners : list (Z * Z)) :
  bgr_image H W (Img3D px) ->
  Z.even p = true -> 0 < p ->
  Forall (fun c => 0 <= fst c /\ 0 <= snd c) corners ->
  exists descriptors,
    extract_feature_descriptors (Img3D px) corners p = Ok descriptors /\
    descriptors =
      map (window_samples (to_gray px) H W p) (filter (unclipped H W p) corners) /\
    Forall (fun d => Z.of_nat (length d) = p * p) descriptors /\
    (forall x y,
       p / 2 <= x -> x + p / 2 <= W -> p / 2 <= y -> y + p / 2 <= H ->
       unclipped H W p (x, y) = true) /\
    (forall x y, 0 <= x -> 0 <= y ->
       x <= p / 2 - 1 \/ W - x <= p / 2 - 1 \/ y <= p / 2 - 1 \/ H - y <= p / 2 - 1 ->
       unclipped H W p (x, y) = false).
Proof.
  intros Himg Hev Hp Hc.
  pose proof (has_shape_to_gray H W px Himg) as (HH & HW & Hs & Hr).
  eexists. split; [|split; [reflexivity|split; [|split]]].
  - unfold extract_feature_descriptors. rewrite (cvtColor_bgr H W px Himg). cbn [bind].
    now rewrite (extract_loop_spec (to_gray px) H W Hr Hs HH p corners Hc).
  - apply Forall_map, Forall_forall. intros c Hin. apply filter_In in Hin.
    now apply window_samples_length.
  - intros x y. apply unclipped_inside; [assumption | lia].
  - intros x y. now apply unclipped_near_border.
Qed.

(** The extractor raises nothing on a colour image, whatever the
    corners are. *)
Lemma extract_feature_descriptors_total
  {cv : Cv2} (px : array2 (list Z)) (H W p : Z) (corners : list (Z * Z)) :
  bgr_image H W (Img3D px) ->
  exists descriptors, extract_feature_descriptors (Img3D px) corners p = Ok descriptors.
Proof.
  intros Himg. unfold extract_feature_descriptors.
  rewrite (cvtColor_bgr H W px Himg). cbn [bind]. eexists. reflexivity.
Qed.

(** C10 does not hold of the code.  With patch size 2 on a 4 x 4 image the
    corner [(-3, -3)] lies outside the image, yet it is not dropped:
    the upper bounds [min 4 (-3 + 1) = -2] are negative, which a slice
    counts from the end, so the patch is [img_gray[0:2, 0:2]]. *)
Theorem extract_keeps_corner_outside_image :
  extract_feature_descriptors (cv := Reference.cv) ramp4 [(-3, -3)] 2
  = Ok [[0; 1; 10; 11]].
Proof. vm_compute. reflexivity. Qed.

(** *** The theorems at concrete inputs *)

Ltac shape_tac :=
  cbv [has_shape bgr_image shape0 rect peak3 gray2 black2 ramp4_px ramp4 map length];
  repeat split; try lia; repeat constructor.

Lemma peak3_shape : has_shape 3 3 peak3.
Proof. shape_tac. Defined.


Lemma ramp4_bgr : bgr_image 4 4 (Img3D ramp4_px).
Proof. shape_tac. Defined.

Lemma black2_bgr : bgr_image 2 2 (Img3D black2).
Proof. shape_tac. Defined.

Lemma black2_zero : Forall (Forall (Forall (eq 0))) black2.
Proof. repeat constructor. Defined.

Lemma lambda_minus_select_spec_witness :
  has_shape 3 3 peak3 /\ 0 <= 1 /\
  exists gmax corners,
    global_max 3 3 peak3 gmax /\
    lambda_minus_select peak3 1 (1 / 2) = Ok corners /\
    (forall x y, In (x, y) corners <->
       1 <= x < 3 - 1 /\ 1 <= y < 3 - 1 /\
       (entry 0%R peak3 y x > 1 / 2 * gmax)%R /\
       window_max 1 peak3 x y) /\
    StronglySorted scan_before corners.
Proof.
  split; [exact peak3_shape|]. split; [lia|].
  apply (lambda_minus_select_spec peak3 3 3 1 (1 / 2)); [exact peak3_shape | lia].
Defined.


Lemma harris_corner_detection_spec_witness :
  bgr_image 4 4 (Img3D ramp4_px) /\ 0 < 3 /\
  exists corners,
    harris_corner_detection (cv := Reference.cv) (Img3D ramp4_px) 3 (4 / 100) (1 / 100)
    = Ok corners /\
    StronglySorted row_major corners.
Proof.
  split; [exact ramp4_bgr|]. split; [lia|].
  destruct (harris_corner_detection_spec
              (cv := Reference.cv) ramp4_px 4 4 3 (4 / 100) (1 / 100) ramp4_bgr)
    as (_ & _ & _ & _ & _ & corners & _ & _ & _ & _ & _ & _ & Hrun & _ & Hsorted); [lia|].
  exists corners. split; assumption.
Defined.

Lemma extract_feature_descriptors_spec_witness :
  bgr_image 4 4 (Img3D ramp4_px) /\ Z.even 2 = true /\ 0 < 2 /\
  Forall (fun c => 0 <= fst c /\ 0 <= snd c) [(1, 1); (0, 0); (3, 3)] /\
  exists descriptors,
    extract_feature_descriptors (cv := Reference.cv) (Img3D ramp4_px)
      [(1, 1); (0, 0); (3, 3)] 2 = Ok descriptors /\
    Forall (fun d => Z.of_nat (length d) = 2 * 2) descriptors.
Proof.
  assert (Hc : Forall (fun c => 0 <= fst c /\ 0 <= snd c) [(1, 1); (0, 0); (3, 3)])
    by (repeat constructor; cbn; lia).
  split; [exact ramp4_bgr|]. split; [reflexivity|]. split; [lia|]. split; [exact Hc|].
  destruct (extract_feature_descriptors_spec
              (cv := Reference.cv) ramp4_px 4 4 2 [(1, 1); (0, 0); (3, 3)]
              ramp4_bgr eq_refl) as (ds & Hrun & _ & Hlen & _); [lia | exact Hc |].
  exists ds. split; assumption.
Defined.

Lemma detectors_convert_to_gray_witness :
  bgr_image 4 4 (Img3D ramp4_px) /\ 0 < 5 /\
  lambda_minus_corner_detection (cv := Reference.cv) (la := Reference.la)
    (Img2D gray2) 5 (1 / 100) = Raise cv2_error /\
  cvtColor_BGR2GRAY (cv := Reference.cv) (Img3D ramp4_px)
  = Ok (to_gray (cv := Reference.cv) ramp4_px).
Proof.
  split; [exact ramp4_bgr|]. split; [lia|].
  destruct (detectors_convert_to_gray
              (cv := Reference.cv) (la := Reference.la)
              gray2 ramp4_px 4 4 5 (4 / 100) (1 / 100) ramp4_bgr)
    as ((Hl & _) & Hc & _); [lia|].
  split; assumption.
Defined.

Lemma black_image_no_corners_witness :
  bgr_image 2 2 (Img3D black2) /\ Forall (Forall (Forall (eq 0))) black2 /\
  0 <= 5 /\ 0 < 5 /\
  lambda_minus_corner_detection (cv := Reference.cv) (la := Reference.la)
    (Img3D black2) 5 (1 / 100) = Ok [] /\
  harris_corner_detection (cv := Reference.cv) (Img3D black2) 5 (4 / 100) (1 / 100) = Ok [].
Proof.
  split; [exact black2_bgr|]. split; [exact black2_zero|]. split; [lia|]. split; [lia|].
  destruct (black_image_no_corners
              (cv := Reference.cv) (la := Reference.la)
              black2 2 2 5 5 (4 / 100) (1 / 100) (1 / 100) black2_bgr black2_zero)
    as (_ & Hl & _ & Hh); [lia | lia |].
  split; assumption.
Defined.

(** C7 as the specification words it fails: a single-channel image is
    rejected, and a colour image is converted and processed. *)
Lemma gray_rejected_colour_accepted :
  lambda_minus_corner_detection (cv := Reference.cv) (la := Reference.la)
    (Img2D gray2) 5 (1 / 100) = Raise cv2_error /\
  harris_corner_detection (cv := Reference.cv) (Img2D gray2) 5 (4 / 100) (1 / 100)
  = Raise cv2_error /\
  lambda_minus_corner_detection (cv := Reference.cv) (la := Reference.la)
    (Img3D black2) 5 (1 / 100) = Ok [] /\
  harris_corner_detection (cv := Reference.cv) (Img3D black2) 5 (4 / 100) (1 / 100) = Ok [].
Proof.
  split; [reflexivity|]. split; [reflexivity|]. split.
  - apply (lambda_minus_black_image black2 2 2); [exact black2_bgr | exact black2_zero | lia].
  - apply (harris_black_image black2 2 2); [exact black2_bgr | exact black2_zero | lia].
Qed.

(** * Further properties *)

(** ** The extractor on arbitrary input *)

(** *** Slices with arbitrary bounds *)

Lemma clip_range (n i : Z) : 0 <= n -> 0 <= Py.clip n i <= n.
Proof. intros Hn. unfold Py.clip. destruct (Z.ltb_spec i 0); lia. Qed.

Lemma clip_clip (n i : Z) : 0 <= n -> Py.clip n (Py.clip n i) = Py.clip n i.
Proof.
  intros Hn. pose proof (clip_range n i Hn) as Hr.
  unfold Py.clip at 1. destruct (Z.ltb_spec (Py.clip n i) 0); lia.
Qed.

Lemma slice_clip {A : Type} (d : A) (l : list A) (start stop : Z) :
  Py.slice l start stop =
  map (fun i => nth (Z.to_nat i) l d)
      (Py.range (Py.clip (Z.of_nat (length l)) start) (Py.clip (Z.of_nat (length l)) stop)).
Proof.
  set (n := Z.of_nat (length l)). assert (Hn : 0 <= n) by lia.
  rewrite <- (slice_nth d l (Py.clip n start) (Py.clip n stop)).
  - unfold Py.slice, Py.slice_len. fold n. now rewrite !clip_clip.
  - apply clip_range, Hn.
  - apply clip_range, Hn.
Qed.

Lemma slice_length {A : Type} (l : list A) (start stop : Z) :
  Z.of_nat (length (Py.slice l start stop))
  = Py.slice_len (Z.of_nat (length l)) start stop.
Proof.
  destruct l as [|a l].
  { unfold Py.slice, Py.slice_len. rewrite skipn_nil, firstn_nil. cbn [length Z.of_nat].
    pose proof (clip_range 0 start ltac:(lia)). pose proof (clip_range 0 stop ltac:(lia)). lia. }
  rewrite (slice_clip a), length_map, range_length. unfold Py.slice_len. lia.
Qed.

Lemma slice2_entries_clip {A : Type} (d : A) (g : array2 A) (H W y0 y1 x0 x1 : Z) :
  has_shape H W g ->
  flatten (slice2 g y0 y1 x0 x1)
  = entries d g (Py.clip H y0) (Py.clip H y1) (Py.clip W x0) (Py.clip W x1).
Proof.
  intros (HH & HW & Hs & Hr). unfold flatten, slice2, entries, shape0 in *.
  rewrite (slice_clip [] g y0 y1), Hs.
  rewrite map_map, flat_map_concat_map. f_equal.
  apply map_ext_in. intros r Hin. apply range_In in Hin.
  pose proof (clip_range H y0 ltac:(lia)). pose proof (clip_range H y1 ltac:(lia)).
  rewrite (slice_clip d), (rect_nth W) by (assumption || lia). reflexivity.
Qed.

(** *** The extractor on arbitrary corners *)

Lemma kept_coord_spec (n p c : Z) :
  Z.even p = true -> 0 < p -> 0 < n ->
  (Py.slice_len n (Z.max 0 (c - p / 2)) (Z.min n (c + p / 2)) =? p) = kept_coord n p c.
Proof.
  intros Hev Hp Hn.
  apply Zeven_bool_iff, Zeven_div2 in Hev. rewrite Z.div2_div in Hev.
  unfold kept_coord, Py.slice_len, Py.clip.
  destruct (Z.ltb_spec (Z.max 0 (c - p / 2)) 0); [lia|].
  destruct (Z.ltb_spec (Z.min n (c + p / 2)) 0);
    destruct (Z.leb_spec (p / 2) c); destruct (Z.leb_spec (c + p / 2) n);
    destruct (Z.eqb_spec c (p / 2 - n)); destruct (Z.ltb_spec p n);
    cbn [andb orb]; (apply Z.eqb_eq; lia) || (apply Z.eqb_neq; lia).
Qed.

Lemma kept_coord_window (n p c : Z) :
  Z.even p = true -> 0 < p -> 0 < n -> kept_coord n p c = true ->
  Py.clip n (Z.max 0 (c - p / 2)) = window_lo (alias_coord n p c) p /\
  Py.clip n (Z.min n (c + p / 2)) = window_hi n (alias_coord n p c) p /\
  span (window_lo (alias_coord n p c) p) (window_hi n (alias_coord n p c) p) = p.
Proof.
  intros Hev Hp Hn Hk.
  apply Zeven_bool_iff, Zeven_div2 in Hev. rewrite Z.div2_div in Hev.
  unfold kept_coord in Hk. unfold alias_coord, window_lo, window_hi, span, Py.clip.
  apply orb_true_iff in Hk. destruct Hk as [Hk|Hk]; apply andb_true_iff in Hk;
    destruct Hk as [H1 H2].
  - apply Z.leb_le in H1, H2.
    destruct (Z.ltb_spec (c + p / 2) 0); [lia|].
    destruct (Z.ltb_spec (Z.max 0 (c - p / 2)) 0); [lia|].
    destruct (Z.ltb_spec (Z.min n (c + p / 2)) 0); lia.
  - apply Z.eqb_eq in H1. apply Z.ltb_lt in H2.
    destruct (Z.ltb_spec (c + p / 2) 0); [|lia].
    destruct (Z.ltb_spec (Z.max 0 (c - p / 2)) 0); [lia|].
    destruct (Z.ltb_spec (Z.min n (c + p / 2)) 0); lia.
Qed.

Section ExtractorAnyCorner.
Context {cv : Cv2}.
Variables (g : array2 Z) (H W p : Z).
Hypothesis g_shape : has_shape H W g.
Hypothesis p_even : Z.even p = true.
Hypothesis p_pos : 0 < p.

Lemma extract_step_any (c : Z * Z) (acc : list (list Z)) :
  extract_step g p acc c =
  if kept_corner H W p c
  then acc ++ [window_samples g H W p (alias_corner H W p c)]
  else acc.
Proof.
  destruct c as [x y]. destruct g_shape as (HH & HW & Hs & Hr).
  unfold extract_step, slice2_shape, shape_eqb, kept_corner. cbn [fst snd].
  rewrite (rect_shape1 W g Hr), Hs by lia.
  rewrite !kept_coord_spec by assumption.
  destruct (kept_coord H p y) eqn:Ky; [|reflexivity].
  destruct (kept_coord W p x) eqn:Kx; [|reflexivity]. cbn [andb negb].
  rewrite (slice2_entries_clip 0 g H W) by exact g_shape.
  destruct (kept_coord_window H p y p_even p_pos HH Ky) as (-> & -> & _).
  destruct (kept_coord_window W p x p_even p_pos HW Kx) as (-> & -> & _).
  reflexivity.
Qed.

Lemma extract_loop_any (corners : list (Z * Z)) :
  forall acc,
    fold_left (extract_step g p) corners acc =
    acc ++ map (fun c => window_samples g H W p (alias_corner H W p c))
               (filter (kept_corner H W p) corners).
Proof.
  induction corners as [|c corners IH]; intros acc; cbn [fold_left filter].
  - cbn. now rewrite app_nil_r.
  - rewrite extract_step_any, IH.
    destruct (kept_corner H W p c); [|reflexivity].
    cbn [map]. now rewrite <- app_assoc.
Qed.

End ExtractorAnyCorner.

(** X1.  On a colour image and for an even positive patch size, the
    extractor keeps exactly the corners each of whose coordinates either
    leaves room for the window ([p/2 <= c] and [c + p/2 <= n]) or equals
    [p/2 - n] with [p < n]; the latter lies outside the image and gets
    the patch of the coordinate [p/2].  The descriptors come in the
    order of the corners kept. *)
Theorem extract_arbitrary_corners
  {cv : Cv2} (px : array2 (list Z)) (H W p : Z) (corners : list (Z * Z)) :
  bgr_image H W (Img3D px) -> Z.even p = true -> 0 < p ->
  extract_feature_descriptors (Img3D px) corners p =
  Ok (map (fun c => window_samples (to_gray px) H W p (alias_corner H W p c))
          (filter (kept_corner H W p) corners)) /\
  (forall c, 0 <= fst c -> 0 <= snd c ->
     kept_corner H W p c = unclipped H W p c /\ alias_corner H W p c = c) /\
  kept_corner H W p (p / 2 - W, p / 2 - H) = ((p <? H) && (p <? W)) /\
  (p < H -> p < W -> alias_corner H W p (p / 2 - W, p / 2 - H) = (p / 2, p / 2)).
Proof.
  intros Himg Hev Hp.
  pose proof (has_shape_to_gray H W px Himg) as Hg.
  pose proof Hev as Hev'.
  apply Zeven_bool_iff, Zeven_div2 in Hev'. rewrite Z.div2_div in Hev'.
  split; [|split; [|split]].
  - unfold extract_feature_descriptors. rewrite (cvtColor_bgr H W px Himg). cbn [bind].
    now rewrite (extract_loop_any (to_gray px) H W p Hg Hev Hp corners []).
  - intros [x y] Hx Hy. cbn [fst snd] in *. split.
    + unfold kept_corner, unclipped, kept_coord, span, window_lo, window_hi. cbn [fst snd].
      destruct Hg as (HH & HW & _).
      f_equal.
      * destruct (Z.leb_spec (p / 2) y); destruct (Z.leb_spec (y + p / 2) H);
          destruct (Z.eqb_spec y (p / 2 - H)); destruct (Z.ltb_spec p H);
          cbn [andb orb]; symmetry; (apply Z.eqb_eq; lia) || (apply Z.eqb_neq; lia).
      * destruct (Z.leb_spec (p / 2) x); destruct (Z.leb_spec (x + p / 2) W);
          destruct (Z.eqb_spec x (p / 2 - W)); destruct (Z.ltb_spec p W);
          cbn [andb orb]; symmetry; (apply Z.eqb_eq; lia) || (apply Z.eqb_neq; lia).
    + unfold alias_corner, alias_coord. cbn [fst snd].
      destruct (Z.ltb_spec (x + p / 2) 0); [lia|].
      destruct (Z.ltb_spec (y + p / 2) 0); [lia|]. reflexivity.
  - unfold kept_corner, kept_coord. cbn [fst snd]. destruct Hg as (HH & HW & _).
    rewrite !Z.eqb_refl.
    destruct (Z.leb_spec (p / 2) (p / 2 - H)); [lia|].
    destruct (Z.leb_spec (p / 2) (p / 2 - W)); [lia|]. reflexivity.
  - intros HpH HpW. unfold alias_corner, alias_coord. cbn [fst snd].
    destruct (Z.ltb_spec (p / 2 - W + p / 2) 0); [|lia].
    destruct (Z.ltb_spec (p / 2 - H + p / 2) 0); [|lia]. f_equal; lia.
Qed.

(** *** Invariants of the extractor, whatever the corners and the patch size *)

Lemma slice2_size {A : Type} (g : array2 A) (H W y0 y1 x0 x1 : Z) :
  has_shape H W g ->
  Z.of_nat (length (flatten (slice2 g y0 y1 x0 x1)))
  = Py.slice_len H y0 y1 * Py.slice_len W x0 x1.
Proof.
  intros Hg. destruct g as [|[|a r] g].
  - destruct Hg as (HH & _ & Hs & _). cbn in Hs. lia.
  - destruct Hg as (_ & HW & _ & Hr). inversion Hr; subst. cbn in *. lia.
  - rewrite (slice2_entries_clip a _ H W) by assumption. unfold entries.
    rewrite (flat_map_length_const _ (Z.to_nat (Py.clip W x1 - Py.clip W x0))).
    + rewrite range_length. unfold Py.slice_len. nia.
    + intros y _. now rewrite length_map, range_length.
Qed.

Lemma extract_step_cases {cv : Cv2} (g : array2 Z) (H W p : Z)
  (acc : list (list Z)) (c : Z * Z) :
  has_shape H W g ->
  extract_step g p acc c = acc \/
  exists d, extract_step g p acc c = acc ++ [d] /\ Z.of_nat (length d) = p * p.
Proof.
  intros Hg. destruct c as [x y]. unfold extract_step, slice2_shape, shape_eqb.
  destruct (has_shape_dims H W g Hg) as [-> ->].
  cbn [fst snd]. destruct (_ && _) eqn:E; cbn [negb]; [|now left].
  right. eexists. split; [reflexivity|].
  apply andb_true_iff in E. destruct E as [Ey Ex]. apply Z.eqb_eq in Ey, Ex.
  rewrite (slice2_size _ H W) by assumption.
  now rewrite Ey, Ex.
Qed.

Lemma extract_descriptors_shape_lemma
  {cv : Cv2} (px : array2 (list Z)) (H W p : Z) (corners : list (Z * Z)) :
  bgr_image H W (Img3D px) ->
  exists descriptors,
    extract_feature_descriptors (Img3D px) corners p = Ok descriptors /\
    (length descriptors <= length corners)%nat /\
    Forall (fun d => Z.of_nat (length d) = p * p) descriptors.
Proof.
  intros Himg. pose proof (has_shape_to_gray H W px Himg) as Hg.
  unfold extract_feature_descriptors. rewrite (cvtColor_bgr H W px Himg). cbn [bind].
  eexists. split; [reflexivity|].
  assert (Hinv : forall acc,
    Forall (fun d => Z.of_nat (length d) = p * p) acc ->
    (length (fold_left (extract_step (to_gray px) p) corners acc)
     <= length acc + length corners)%nat /\
    Forall (fun d => Z.of_nat (length d) = p * p)
           (fold_left (extract_step (to_gray px) p) corners acc)).
  { induction corners as [|c corners IH]; intros acc Hacc; cbn [fold_left length].
    - split; [lia | assumption].
    - destruct (extract_step_cases (to_gray px) H W p acc c Hg) as [->|(d & -> & Hd)].
      + destruct (IH acc Hacc). split; [lia | assumption].
      + destruct (IH (acc ++ [d])) as [Hlen Hall].
        * apply Forall_app. split; [assumption | now repeat constructor].
        * rewrite length_app in Hlen. cbn [length] in Hlen. split; [lia | assumption]. }
  destruct (Hinv [] (Forall_nil _)) as [Hlen Hall]. cbn [length] in Hlen.
  split; [lia | assumption].
Qed.


Lemma extract_negative_patch {cv : Cv2} (g : array2 Z) (p : Z) (corners : list (Z * Z)) :
  p < 0 -> forall acc, fold_left (extract_step g p) corners acc = acc.
Proof.
  intros Hneg. induction corners as [|[x y] corners IH]; intros acc; [reflexivity|].
  cbn [fold_left]. unfold extract_step at 2, slice2_shape, shape_eqb. cbn [fst snd].
  assert (E : (Py.slice_len (shape0 g) (Z.max 0 (y - p / 2))
                 (Z.min (shape0 g) (y + p / 2)) =? p) = false)
    by (apply Z.eqb_neq; unfold Py.slice_len; lia).
  rewrite E. cbn [andb negb]. apply IH.
Qed.

(** X2.  On a colour image the extractor raises nothing, whatever the
    integer corners and the patch size are; it returns at most one
    descriptor per corner, every descriptor has exactly
    [patch_size * patch_size] entries, and a negative patch size gives
    no descriptor at all. *)
Theorem extract_descriptors_shape
  {cv : Cv2} (px : array2 (list Z)) (H W p : Z) (corners : list (Z * Z)) :
  bgr_image H W (Img3D px) ->
  exists descriptors,
    extract_feature_descriptors (Img3D px) corners p = Ok descriptors /\
    (length descriptors <= length corners)%nat /\
    Forall (fun d => Z.of_nat (length d) = p * p) descriptors /\
    (p < 0 -> descriptors = []).
Proof.
  intros Himg.
  destruct (extract_descriptors_shape_lemma px H W p corners Himg) as (ds & Hrun & Hlen & Hall).
  exists ds. split; [assumption|]. split; [assumption|]. split; [assumption|].
  intros Hneg. unfold extract_feature_descriptors in Hrun.
  rewrite (cvtColor_bgr H W px Himg) in Hrun. cbn [bind] in Hrun.
  rewrite extract_negative_patch in Hrun by assumption. now injection Hrun as <-.
Qed.

Lemma extract_step_acc {cv : Cv2} (g : array2 Z) (p : Z) (acc : list (list Z)) (c : Z * Z) :
  extract_step g p acc c = acc ++ extract_step g p [] c.
Proof.
  destruct c as [x y]. unfold extract_step. destruct (negb _); [now rewrite app_nil_r | reflexivity].
Qed.

Lemma extract_loop_acc {cv : Cv2} (g : array2 Z) (p : Z) (corners : list (Z * Z)) :
  forall acc,
    fold_left (extract_step g p) corners acc
    = acc ++ fold_left (extract_step g p) corners [].
Proof.
  induction corners as [|c corners IH]; intros acc; cbn [fold_left].
  - now rewrite app_nil_r.
  - rewrite IH, (IH (extract_step g p [] c)), (extract_step_acc g p acc c).
    now rewrite app_assoc.
Qed.

(** X3.  The extractor treats every corner on its own: the descriptors
    of two corner lists in a row are the descriptors of the first list
    followed by those of the second, and a conversion failure of the
    image is the result in all three calls. *)
Theorem extract_concatenation
  {cv : Cv2} (img : image) (p : Z) (corners1 corners2 : list (Z * Z)) :
  extract_feature_descriptors img (corners1 ++ corners2) p =
  (d1 <- extract_feature_descriptors img corners1 p ;;
   d2 <- extract_feature_descriptors img corners2 p ;;
   Ok (d1 ++ d2)).
Proof.
  unfold extract_feature_descriptors.
  destruct (cvtColor_BGR2GRAY img) as [g|e]; cbn [bind]; [|reflexivity].
  now rewrite fold_left_app, extract_loop_acc.
Qed.

(** ** The selection stages *)

(** *** A negative window size *)

Lemma for_each_raises {A S : Type} (body : S -> A -> result S) (x : A) (xs : list A) :
  In x xs -> (forall s, exists e, body s x = Raise e) ->
  forall s, exists e, for_each xs body s = Raise e.
Proof.
  intros Hin Hx. induction xs as [|x' xs IH]; intros s; [destruct Hin|].
  cbn [for_each]. destruct (body s x') as [s'|e] eqn:E; cbn [bind]; [|now exists e].
  destruct Hin as [->|Hin].
  - destruct (Hx s) as (e & He). congruence.
  - now apply IH.
Qed.

(** X4.  With a negative [window_size] lines 38-55 never return a corner
    list: the scan runs past the last row and the call ends in an
    exception. *)
Theorem lambda_minus_select_negative_window
  (lambda_minus : array2 R) (H W w : Z) (t : R) :
  has_shape H W lambda_minus -> w < 0 ->
  exists e, lambda_minus_select lambda_minus w t = Raise e.
Proof.
  intros Hs Hw. unfold lambda_minus_select.
  destruct (np_max_global H W lambda_minus Hs) as (gmax & -> & _). cbn [bind].
  destruct (has_shape_dims H W lambda_minus Hs) as [-> ->].
  destruct Hs as (HH & HW & Hs & _).
  apply (for_each_raises _ H).
  - apply range_In. lia.
  - intros corners. exists IndexError.
    rewrite (range_cons w (W - w)) by lia. cbn [for_each].
    unfold nms_step, get2, Py.index. unfold shape0 in Hs. rewrite Hs.
    destruct (Z.leb_spec H H); [|lia]. rewrite orb_true_r. reflexivity.
Qed.

(** *** What the suppression guarantees *)


(** *** Without a window the two selection rules agree *)

Lemma range_single (a : Z) : Py.range a (a + 1) = [a].
Proof. rewrite range_cons by lia. now rewrite range_nil by lia. Qed.

Lemma keeps_no_window (a : array2 R) (th : R) (y x : Z) :
  keeps a 0 th y x = if Rgt_dec (entry 0%R a y x) th then true else false.
Proof.
  unfold keeps, entries. rewrite !Z.sub_0_r, !Z.add_0_r, !range_single.
  cbn [flat_map map app list_max fold_left].
  destruct (Rgt_dec _ _); [|reflexivity].
  destruct (Req_dec_T _ _); [reflexivity | contradiction].
Qed.

Lemma flat_map_map {A B C : Type} (f : B -> C) (g : A -> list B) (l : list A) :
  map f (flat_map g l) = flat_map (fun a => map f (g a)) l.
Proof.
  induction l as [|a l IH]; [reflexivity|]. cbn [flat_map]. now rewrite map_app, IH.
Qed.

(** X6.  With [window_size = 0] the suppression of lines 38-55 compares
    a pixel with itself only: on one response map the lambda-minus
    selection returns the pixels the Harris selection (lines 73-77)
    returns, in the same order, with the two coordinates exchanged. *)
Theorem selection_rules_agree_without_window
  (R_map : array2 R) (H W : Z) (t : R) :
  has_shape H W R_map ->
  exists corners,
    harris_select R_map t = Ok corners /\
    lambda_minus_select R_map 0 t = Ok (map (fun rc => (snd rc, fst rc)) corners).
Proof.
  intros Hs. destruct (np_max_global H W R_map Hs) as (gmax & Hm & Hg).
  eexists. split.
  - unfold harris_select. rewrite Hm. cbn [bind]. reflexivity.
  - rewrite (select_spec R_map H W 0 (t * gmax)%R Hs (Z.le_refl 0) t gmax eq_refl Hg).
    f_equal. rewrite (argwhere_where_true H W) by now apply has_shape_map.
    unfold scan, where_true. rewrite flat_map_map, !Z.sub_0_r.
    apply flat_map_ext_in. intros y Hy. apply range_In in Hy.
    rewrite map_map. cbn [fst snd]. f_equal.
    apply filter_ext_in. intros x Hx. apply range_In in Hx.
    rewrite keeps_no_window, (entry_map _ 0%R false H W) by assumption. reflexivity.
Qed.

(** *** When a detector finds something *)

(** X7.  For a fraction [t < 1] the Harris selection (lines 73-77)
    returns at least one pixel exactly when the greatest response is
    positive. *)
Theorem harris_select_nonempty
  (R_map : array2 R) (H W : Z) (t : R) :
  has_shape H W R_map -> (t < 1)%R ->
  exists gmax corners,
    global_max H W R_map gmax /\
    harris_select R_map t = Ok corners /\ (corners <> [] <-> (0 < gmax)%R).
Proof.
  intros Hs Ht. destruct (np_max_global H W R_map Hs) as (gmax & _ & Hg).
  destruct (harris_select_spec R_map H W t gmax Hs Hg) as (corners & Hrun & Hin & _).
  exists gmax, corners. split; [assumption|]. split; [assumption|]. split.
  - intros Hne. destruct corners as [|[r c] corners]; [congruence|].
    destruct (proj1 (Hin r c) (or_introl eq_refl)) as (Hr & Hc & Hgt).
    destruct Hg as [_ Hle]. specialize (Hle r c Hr Hc). nra.
  - intros Hpos Hnil. destruct Hg as [(r & c & Hr & Hc & E) _].
    assert (Hmem : In (r, c) corners) by (apply Hin; repeat split; try lia; rewrite E; nra).
    rewrite Hnil in Hmem. destruct Hmem.
Qed.

(** X8.  For a fraction [t < 1], lines 38-55 return every interior pixel
    that attains a positive global maximum of the response map, and
    return nothing when the global maximum is not positive. *)
Theorem lambda_minus_select_global_maximum
  (lambda_minus : array2 R) (H W w : Z) (t : R) :
  has_shape H W lambda_minus -> 0 <= w -> (t < 1)%R ->
  exists gmax corners,
    global_max H W lambda_minus gmax /\
    lambda_minus_select lambda_minus w t = Ok corners /\
    (forall x y, w <= x < W - w -> w <= y < H - w -> (0 < gmax)%R ->
       entry 0%R lambda_minus y x = gmax -> In (x, y) corners) /\
    ((gmax <= 0)%R -> corners = []).
Proof.
  intros Hs Hw Ht. destruct (np_max_global H W lambda_minus Hs) as (gmax & _ & Hg).
  exists gmax, (scan lambda_minus H W w (t * gmax)%R).
  split; [assumption|].
  split; [now apply (select_spec lambda_minus H W w (t * gmax)%R Hs Hw t gmax)|].
  split.
  - intros x y Hx Hy Hpos E. apply scan_In. repeat split; try lia.
    apply (keeps_iff lambda_minus H W w _ Hw); [assumption..|].
    split; [rewrite E; nra|].
    intros r c Hr Hc. rewrite E. destruct Hg as [_ Hle]. apply Hle; lia.
  - intros Hnp. destruct (scan lambda_minus H W w (t * gmax)%R) as [|[x y] l] eqn:E;
      [reflexivity|]. exfalso.
    assert (Hin : In (x, y) (scan lambda_minus H W w (t * gmax)%R)) by (rewrite E; now left).
    apply scan_In in Hin. destruct Hin as (Hx & Hy & K).
    apply (keeps_iff lambda_minus H W w _ Hw) in K; [|assumption..].
    destruct K as [Hgt _]. destruct Hg as [_ Hle].
    specialize (Hle y x ltac:(lia) ltac:(lia)). nra.
Qed.

(** *** The lambda-minus detector in exact arithmetic *)


(** ** The detectors and the extractor together *)

(** *** From the detector to the extractor *)



(** *** The layout of a descriptor *)

Lemma range_nth (a b : Z) (j : nat) (d : Z) :
  Z.of_nat j < b - a -> nth j (Py.range a b) d = a + Z.of_nat j.
Proof.
  intros Hj. unfold Py.range.
  rewrite (nth_map_in _ _ _ 0%nat d) by (rewrite length_seq; lia).
  rewrite seq_nth by lia. reflexivity.
Qed.

Lemma entries_nth {A : Type} (d : A) (g : array2 A) (x0 x1 : Z) :
  forall (n : nat) (y0 y1 i j : Z),
    Z.to_nat (y1 - y0) = n ->
    0 <= i < y1 - y0 -> 0 <= j < x1 - x0 ->
    nth (Z.to_nat (i * (x1 - x0) + j)) (entries d g y0 y1 x0 x1) d
    = entry d g (y0 + i) (x0 + j).
Proof.
  induction n as [|n IH]; intros y0 y1 i j Hn Hi Hj; [lia|].
  unfold entries. rewrite (range_cons y0 y1) by lia. cbn [flat_map].
  fold (entries d g (y0 + 1) y1 x0 x1).
  assert (Hlen : length (map (fun k => entry d g y0 k) (Py.range x0 x1))
                 = Z.to_nat (x1 - x0)) by now rewrite length_map, range_length.
  destruct (Z.eq_dec i 0) as [->|Hi0].
  - rewrite app_nth1 by (rewrite Hlen; lia).
    rewrite (nth_map_in _ _ _ 0 d) by (rewrite range_length; lia).
    rewrite range_nth by lia. rewrite Z.add_0_r. f_equal. lia.
  - rewrite app_nth2 by (rewrite Hlen; nia). rewrite Hlen.
    replace (Z.to_nat (i * (x1 - x0) + j) - Z.to_nat (x1 - x0))%nat
      with (Z.to_nat ((i - 1) * (x1 - x0) + j)) by nia.
    rewrite (IH (y0 + 1) y1 (i - 1) j) by lia. f_equal. lia.
Qed.

Lemma window_layout
  {cv : Cv2} (px : array2 (list Z)) (H W p x y : Z) :
  bgr_image H W (Img3D px) -> Z.even p = true -> 0 < p ->
  p / 2 <= x -> x + p / 2 <= W -> p / 2 <= y -> y + p / 2 <= H ->
  exists d,
    extract_feature_descriptors (Img3D px) [(x, y)] p = Ok [d] /\
    (forall i j, 0 <= i < p -> 0 <= j < p ->
       nth (Z.to_nat (i * p + j)) d 0
       = entry 0 (to_gray px) (y - p / 2 + i) (x - p / 2 + j)) /\
    nth (Z.to_nat (p / 2 * p + p / 2)) d 0 = entry 0 (to_gray px) y x.
Proof.
  intros Himg Hev Hp Hx Hx' Hy Hy'.
  pose proof (has_shape_to_gray H W px Himg) as (HH & HW & Hs0 & Hr).
  pose proof Hev as Hev'.
  apply Zeven_bool_iff, Zeven_div2 in Hev'. rewrite Z.div2_div in Hev'.
  exists (window_samples (to_gray px) H W p (x, y)).
  assert (Hlay : forall i j, 0 <= i < p -> 0 <= j < p ->
            nth (Z.to_nat (i * p + j)) (window_samples (to_gray px) H W p (x, y)) 0
            = entry 0 (to_gray px) (y - p / 2 + i) (x - p / 2 + j)).
  { intros i j Hi Hj. unfold window_samples, window_lo, window_hi. cbn [fst snd].
    replace (Z.max 0 (y - p / 2)) with (y - p / 2) by lia.
    replace (Z.min H (y + p / 2)) with (y + p / 2) by lia.
    replace (Z.max 0 (x - p / 2)) with (x - p / 2) by lia.
    replace (Z.min W (x + p / 2)) with (x + p / 2) by lia.
    rewrite <- (entries_nth 0 (to_gray px) (x - p / 2) (x + p / 2)
                  (Z.to_nat p) (y - p / 2) (y + p / 2) i j) by lia.
    do 2 f_equal. lia. }
  split; [|split; [exact Hlay|]].
  - unfold extract_feature_descriptors. rewrite (cvtColor_bgr H W px Himg). cbn [bind].
    rewrite (extract_loop_spec (to_gray px) H W Hr Hs0 HH p);
      [|repeat constructor; cbn [fst snd]; lia].
    cbn [filter app]. rewrite unclipped_inside by (assumption || lia). reflexivity.
  - rewrite (Hlay (p / 2) (p / 2)) by lia. f_equal; lia.
Qed.

(** X11.  A descriptor is the row-major flattening of the patch around
    the corner read as (column, row): for a corner [(x, y)] whose patch
    fits, entry [i * p + j] of its descriptor is the sample of the gray
    image in row [y - p/2 + i] and column [x - p/2 + j]; in particular
    entry [(p/2) * p + p/2] is the sample at row [y], column [x]. *)
Theorem descriptor_layout
  {cv : Cv2} (px : array2 (list Z)) (H W p x y : Z) :
  bgr_image H W (Img3D px) -> Z.even p = true -> 0 < p ->
  p / 2 <= x -> x + p / 2 <= W -> p / 2 <= y -> y + p / 2 <= H ->
  exists d,
    extract_feature_descriptors (Img3D px) [(x, y)] p = Ok [d] /\
    Z.of_nat (length d) = p * p /\
    (forall i j, 0 <= i < p -> 0 <= j < p ->
       nth (Z.to_nat (i * p + j)) d 0
       = entry 0 (to_gray px) (y - p / 2 + i) (x - p / 2 + j)) /\
    nth (Z.to_nat (p / 2 * p + p / 2)) d 0 = entry 0 (to_gray px) y x.
Proof.
  intros Himg Hev Hp Hx Hx' Hy Hy'.
  destruct (window_layout px H W p x y Himg Hev Hp Hx Hx' Hy Hy') as (d & Hrun & Hlay & Hc).
  exists d. split; [assumption|]. split; [|split; assumption].
  destruct (extract_descriptors_shape_lemma px H W p [(x, y)] Himg) as (ds & Hrun' & _ & Hall).
  rewrite Hrun in Hrun'. injection Hrun' as <-. now inversion Hall.
Qed.


(** ** The matcher: shape of the result and errors *)

(** *** The shape of the match list *)

Lemma Forall2_nth {A B : Type} (P : A -> B -> Prop) (l1 : list A) (l2 : list B)
  (d1 : A) (d2 : B) :
  Forall2 P l1 l2 ->
  forall i, (i < length l1)%nat -> P (nth i l1 d1) (nth i l2 d2).
Proof.
  induction 1 as [|a b l1 l2 Hab _ IH]; intros i Hi; [cbn in Hi; lia|].
  destruct i as [|i]; [exact Hab|]. cbn [nth]. apply IH. cbn in Hi. lia.
Qed.

Lemma enumerate_length {A : Type} (l : list A) : length (enumerate l) = length l.
Proof. unfold enumerate. rewrite length_combine, range_length. lia. Qed.

Lemma enumerate_at {A : Type} (d : A) (l : list A) (i : nat) :
  (i < length l)%nat -> nth i (enumerate l) (0, d) = (Z.of_nat i, nth i l d).
Proof.
  intros Hi. rewrite (enumerate_nth d).
  rewrite (nth_map_in _ _ _ 0 (0, d)) by (rewrite range_length; lia).
  rewrite range_nth by lia. now rewrite Z.add_0_l, Nat2Z.id.
Qed.



(** *** Descriptors of different lengths *)

Lemma enumerate_cons {A : Type} (a : A) (l : list A) :
  exists rest, enumerate (a :: l) = (0, a) :: rest.
Proof.
  unfold enumerate. cbn [length]. rewrite (range_cons 0) by lia.
  cbn [combine]. eexists. reflexivity.
Qed.

Lemma broadcast2_mismatch {A : Type} (f : A -> A -> A) (u v : list A) :
  length u <> length v -> length u <> 1%nat -> length v <> 1%nat ->
  broadcast2 f u v = Raise ValueError.
Proof.
  intros Huv Hu Hv. unfold broadcast2.
  destruct (Nat.eqb_spec (length u) (length v)); [contradiction|].
  destruct u as [|a [|a' u]]; destruct v as [|b [|b' v]]; cbn in *; congruence.
Qed.

(** X14.  When the descriptors of the first set have one length [n], those
    of the second another length [m], neither length is 1 and neither
    set is empty, the matcher ends in [ValueError] under either metric:
    the element-wise operation of the first pair cannot broadcast. *)
Theorem match_features_length_mismatch
  {A : Type} {dt : DType A} (n m : nat) (method : string)
  (descriptors1 descriptors2 : list (list A)) :
  uniform n descriptors1 -> uniform m descriptors2 ->
  descriptors1 <> [] -> descriptors2 <> [] ->
  n <> m -> n <> 1%nat -> m <> 1%nat ->
  match_features descriptors1 descriptors2 method = Raise ValueError.
Proof.
  intros H1 H2 Hne1 Hne2 Hnm Hn Hm.
  destruct descriptors1 as [|d1 ds1]; [congruence|].
  destruct descriptors2 as [|d2 ds2]; [congruence|].
  inversion H1 as [|? ? Hd1 _]; subst. inversion H2 as [|? ? Hd2 _]; subst.
  unfold match_features, best_match.
  destruct (enumerate_cons d1 ds1) as (r1 & ->).
  destruct (enumerate_cons d2 ds2) as (r2 & ->).
  cbn [for_each snd fst]. unfold match_step at 1.
  rewrite !broadcast2_mismatch by assumption.
  destruct (is_SSD method); reflexivity.
Qed.

(** *** The method string *)

Lemma for_each_ext {A S : Type} (f g : S -> A -> result S) (l : list A) :
  (forall s x, f s x = g s x) -> forall s, for_each l f s = for_each l g s.
Proof.
  intros Hfg. induction l as [|x l IH]; intros s; [reflexivity|].
  cbn [for_each]. rewrite Hfg. destruct (g s x); cbn [bind]; [apply IH | reflexivity].
Qed.

(** X15.  Every method string other than ["SSD"], a misspelt one
    included, selects normalised cross-correlation: the result is the
    one of ["NCC"]. *)
Theorem match_features_other_method
  {A : Type} {dt : DType A} (method : string)
  (descriptors1 descriptors2 : list (list A)) :
  method <> "SSD"%string ->
  match_features descriptors1 descriptors2 method
  = match_features descriptors1 descriptors2 "NCC".
Proof.
  intros Hm. apply String.eqb_neq in Hm.
  unfold match_features. apply for_each_ext. intros matches id.
  unfold best_match, is_SSD. rewrite Hm. cbn [String.eqb Ascii.eqb Bool.eqb].
  rewrite (for_each_ext (match_step method (snd id)) (match_step "NCC" (snd id))).
  - reflexivity.
  - intros best [j d2]. unfold match_step, is_SSD. rewrite Hm. reflexivity.
Qed.

(** ** The matcher: scores *)

(** *** NCC and a descriptor of zeros *)

Lemma xgt_NaN (b : xreal) : xgt NaN b = false.
Proof. unfold xgt. now destruct b. Qed.

Section ZeroDescriptor.
Context {A : Type} {dt : DType A}.
Variable z : A.
Hypothesis to_R_z : to_R z = 0%R.
Hypothesis mul_z : forall b, mul z b = z.

Lemma correlation_zero (d1 d2 : list A) :
  Forall (eq z) d1 ->
  np_sum (map (fun ab => mul (fst ab) (snd ab)) (combine d1 d2)) = 0%R.
Proof.
  intros Hz. revert d2. induction Hz as [|a d1 <- _ IH]; intros [|b d2];
    try reflexivity.
  unfold np_sum in *. cbn [combine map Rsum fold_right fst snd].
  rewrite mul_z, to_R_z. specialize (IH d2). unfold Rsum in IH. rewrite IH. ring.
Qed.

Lemma norm_zero (d : list A) : Forall (eq z) d -> norm d = 0%R.
Proof.
  intros Hz. unfold norm.
  replace (Rsum (map (fun a => (to_R a * to_R a)%R) d)) with 0%R; [apply sqrt_0|].
  induction Hz as [|a d <- _ IH]; [reflexivity|].
  cbn [map Rsum fold_right]. unfold Rsum in IH. rewrite <- IH, to_R_z. ring.
Qed.

Lemma ncc_step_zero (d1 d2 : list A) (best : option Z * xreal) (j : Z) :
  Forall (eq z) d1 -> length d1 = length d2 ->
  match_step "NCC" d1 best (j, d2) = Ok best.
Proof.
  intros Hz Hlen. unfold match_step. cbn [is_SSD String.eqb Ascii.eqb Bool.eqb].
  rewrite (broadcast2_same mul d1 d2 Hlen). cbn [bind].
  rewrite (correlation_zero d1 d2 Hz), (norm_zero d1 Hz).
  unfold xdiv. destruct (Req_dec_T (0 * norm d2) 0) as [_|Hne]; [|exfalso; apply Hne; ring].
  destruct (Req_dec_T 0 0) as [_|Hne]; [|contradiction].
  now rewrite xgt_NaN.
Qed.

Lemma ncc_best_match_zero (n : nat) (d1 : list A) (ds : list (list A)) :
  Forall (eq z) d1 -> length d1 = n -> uniform n ds ->
  best_match "NCC" d1 ds = Ok (None, Fin (-1)).
Proof.
  intros Hz Hd Hu. unfold best_match, enumerate.
  cbn [is_SSD String.eqb Ascii.eqb Bool.eqb].
  generalize (Py.range 0 (Z.of_nat (length ds))) as js.
  induction Hu as [|d2 ds Hd2 _ IH]; intros [|j js]; try reflexivity.
  cbn [combine for_each]. rewrite ncc_step_zero by (assumption || congruence).
  cbn [bind]. apply IH.
Qed.

Lemma ncc_zero_entries (n : nat) (ds1 ds2 : list (list A)) :
  uniform n ds1 -> uniform n ds2 ->
  exists matches,
    match_features ds1 ds2 "NCC" = Ok matches /\
    forall i, (i < length ds1)%nat -> Forall (eq z) (nth i ds1 []) ->
      nth i matches (0, None) = (Z.of_nat i, None).
Proof.
  intros H1 H2.
  destruct (match_features_each "NCC"
              (fun id o => Forall (eq z) (snd id) -> o = None) ds1 ds2)
    as (matches & Hrun & HQ).
  - apply Forall_forall. intros [i d] Hin. cbn [snd].
    assert (Hd : length d = n).
    { unfold uniform in H1. rewrite Forall_forall in H1.
      apply H1. unfold enumerate in Hin. now apply in_combine_r in Hin. }
    destruct (best_match_ok n "NCC" d ds2 Hd H2) as (best & Hbest & _).
    exists best. split; [assumption|]. intros Hz.
    rewrite (ncc_best_match_zero n d ds2 Hz Hd H2) in Hbest. now injection Hbest as <-.
  - exists matches. split; [assumption|]. intros i Hi Hz.
    pose proof (Forall2_nth _ _ _ (0, []) (0, None) HQ i
                  ltac:(rewrite enumerate_length; exact Hi)) as [E Ho].
    rewrite (enumerate_at []) in E, Ho by exact Hi. cbn [fst snd] in E, Ho.
    destruct (nth i matches (0, None)) as [i' o]. cbn [fst snd] in *.
    now rewrite E, (Ho Hz).
Qed.

End ZeroDescriptor.

(** X17.  Under NCC an all-zero 8-bit descriptor (an all-black patch) of
    the first set gets no partner, whatever the second set holds: its
    norm is zero, every score is [0 / 0 = nan], and no comparison with
    [nan] succeeds. *)
Theorem ncc_black_patch_unmatched
  (n : nat) (descriptors1 descriptors2 : list (list Z)) :
  uniform n descriptors1 -> uniform n descriptors2 ->
  exists matches,
    match_features (dt := uint8) descriptors1 descriptors2 "NCC" = Ok matches /\
    forall i, (i < length descriptors1)%nat ->
      Forall (eq 0) (nth i descriptors1 []) ->
      nth i matches (0, None) = (Z.of_nat i, None).
Proof.
  intros H1 H2.
  apply (ncc_zero_entries (dt := uint8) 0 eq_refl (fun b => eq_refl) n); assumption.
Qed.

(** *** SSD on 8-bit descriptors *)

Lemma square_wraps (a b : Z) :
  (a - b) mod 16 = 0 ->
  mul (DType := uint8) (sub (DType := uint8) a b) (sub (DType := uint8) a b) = 0.
Proof.
  intros H16. cbn [mul sub uint8].
  apply Z.mod_divide in H16; [|lia]. destruct H16 as (q & ->).
  replace (q * 16) with (16 * q) by lia.
  change 256 with (16 * 16). rewrite Z.mul_mod_distr_l by lia.
  replace (16 * (q mod 16) * (16 * (q mod 16)))
    with ((q mod 16) * (q mod 16) * (16 * 16)) by ring.
  apply Z.mod_mul. lia.
Qed.

Lemma ssd_uint8_wraps (d1 d2 : list Z) :
  Forall2 (fun a b => (a - b) mod 16 = 0) d1 d2 -> ssd (dt := uint8) d1 d2 = 0%R.
Proof.
  induction 1 as [|a b d1 d2 Hab _ IH]; [reflexivity|].
  unfold ssd, np_sum in *. cbn [combine map Rsum fold_right fst snd].
  rewrite (square_wraps a b Hab). unfold Rsum in IH. rewrite IH. cbn [to_R uint8]. lra.
Qed.

(** X18.  On 8-bit descriptors the difference and the square wrap around
    modulo 256: two descriptors whose entries differ by multiples of 16
    have SSD score 0, and when all descriptors of two sets are congruent
    in this way, SSD pairs every descriptor of the first set with index
    0 of the second. *)
Theorem ssd_uint8_congruent_descriptors
  (n : nat) (descriptors1 descriptors2 : list (list Z)) :
  uniform n descriptors1 -> uniform n descriptors2 -> descriptors2 <> [] ->
  (forall d1 d2, In d1 descriptors1 -> In d2 descriptors2 ->
     Forall2 (fun a b => (a - b) mod 16 = 0) d1 d2) ->
  (forall d1 d2, In d1 descriptors1 -> In d2 descriptors2 ->
     ssd (dt := uint8) d1 d2 = 0%R) /\
  match_features (dt := uint8) descriptors1 descriptors2 "SSD"
  = Ok (map (fun i => (i, Some 0)) (Py.range 0 (Z.of_nat (length descriptors1)))).
Proof.
  intros H1 H2 Hne Hcong.
  assert (Hz : forall d1 d2, In d1 descriptors1 -> In d2 descriptors2 ->
                 ssd (dt := uint8) d1 d2 = 0%R)
    by (intros; now apply ssd_uint8_wraps, Hcong).
  split; [exact Hz|].
  destruct (match_features_SSD_least (dt := uint8) n "SSD"
              descriptors1 descriptors2 eq_refl H1 H2 Hne) as (matches & -> & HQ).
  f_equal. rewrite <- (enumerate_fst descriptors1), map_map.
  apply (Forall2_map_eq _ _ _ _ HQ).
  intros [i d] [i' o] Hin [E (j & Ho & Hj & _ & Hfirst)]. cbn [fst snd] in *. subst i' o.
  do 2 f_equal.
  destruct (Z.eq_dec j 0) as [->|Hj0]; [reflexivity|]. exfalso.
  assert (Hd : In d descriptors1) by (unfold enumerate in Hin; now apply in_combine_r in Hin).
  specialize (Hfirst 0 ltac:(lia)).
  rewrite !Hz in Hfirst; try assumption; [lra | |]; apply nth_In; lia.
Qed.

(** *** NCC and a descriptor of the opposite direction *)



Lemma Rsum_sq_nonneg (d : list R) : (0 <= Rsum (map (fun a => a * a)%R d))%R.
Proof.
  induction d as [|a d IH]; cbn [map Rsum fold_right]; [lra|].
  unfold Rsum in IH. pose proof (Rle_0_sqr a) as Ha. unfold Rsqr in Ha. lra.
Qed.


(** *** The further theorems at concrete inputs *)

Lemma uniform2_uint8 : uniform 2 [[16; 16]; [0; 0]].
Proof. repeat constructor. Defined.

Lemma uniform3_uint8 : uniform 3 [[1; 2; 3]].
Proof. repeat constructor. Defined.

Lemma extract_arbitrary_corners_witness :
  bgr_image 4 4 (Img3D ramp4_px) /\ Z.even 2 = true /\ 0 < 2 /\
  extract_feature_descriptors (cv := Reference.cv) (Img3D ramp4_px) [(-3, -3); (1, 1)] 2 =
  Ok (map (fun c => window_samples (to_gray (cv := Reference.cv) ramp4_px) 4 4 2
                      (alias_corner 4 4 2 c))
          (filter (kept_corner 4 4 2) [(-3, -3); (1, 1)])).
Proof.
  split; [exact ramp4_bgr|]. split; [reflexivity|]. split; [lia|].
  apply (extract_arbitrary_corners (cv := Reference.cv) ramp4_px 4 4 2 [(-3, -3); (1, 1)]
           ramp4_bgr eq_refl). lia.
Defined.

Lemma extract_descriptors_shape_witness :
  bgr_image 4 4 (Img3D ramp4_px) /\
  exists descriptors,
    extract_feature_descriptors (cv := Reference.cv) (Img3D ramp4_px) [(-3, -3); (9, 9)] 2
    = Ok descriptors /\
    (length descriptors <= 2)%nat.
Proof.
  split; [exact ramp4_bgr|].
  destruct (extract_descriptors_shape (cv := Reference.cv) ramp4_px 4 4 2
              [(-3, -3); (9, 9)] ramp4_bgr) as (ds & Hrun & Hlen & _).
  exists ds. split; assumption.
Defined.

Lemma lambda_minus_select_negative_window_witness :
  has_shape 3 3 peak3 /\ -1 < 0 /\
  exists e, lambda_minus_select peak3 (-1) (1 / 100) = Raise e.
Proof.
  split; [exact peak3_shape|]. split; [lia|].
  apply (lambda_minus_select_negative_window peak3 3 3 (-1) (1 / 100) peak3_shape). lia.
Defined.


Lemma selection_rules_agree_without_window_witness :
  has_shape 3 3 peak3 /\
  exists corners,
    harris_select peak3 (1 / 100) = Ok corners /\
    lambda_minus_select peak3 0 (1 / 100) = Ok (map (fun rc => (snd rc, fst rc)) corners).
Proof.
  split; [exact peak3_shape|].
  apply (selection_rules_agree_without_window peak3 3 3 (1 / 100) peak3_shape).
Defined.

Lemma half_lt_one : (1 / 2 < 1)%R.
Proof. lra. Defined.

Lemma harris_select_nonempty_witness :
  has_shape 3 3 peak3 /\ (1 / 2 < 1)%R /\
  exists gmax corners,
    global_max 3 3 peak3 gmax /\
    harris_select peak3 (1 / 2) = Ok corners /\ (corners <> [] <-> (0 < gmax)%R).
Proof.
  split; [exact peak3_shape|]. split; [exact half_lt_one|].
  apply (harris_select_nonempty peak3 3 3 (1 / 2) peak3_shape half_lt_one).
Defined.

Lemma lambda_minus_select_global_maximum_witness :
  has_shape 3 3 peak3 /\ 0 <= 1 /\ (1 / 2 < 1)%R /\
  exists gmax corners,
    global_max 3 3 peak3 gmax /\
    lambda_minus_select peak3 1 (1 / 2) = Ok corners /\
    ((gmax <= 0)%R -> corners = []).
Proof.
  split; [exact peak3_shape|]. split; [lia|]. split; [exact half_lt_one|].
  destruct (lambda_minus_select_global_maximum peak3 3 3 1 (1 / 2) peak3_shape)
    as (gmax & corners & Hg & Hrun & _ & Hnil); [lia | exact half_lt_one |].
  exists gmax, corners. split; [exact Hg | split; [exact Hrun | exact Hnil]].
Defined.




Lemma descriptor_layout_witness :
  bgr_image 4 4 (Img3D ramp4_px) /\ Z.even 2 = true /\ 0 < 2 /\
  2 / 2 <= 1 /\ 1 + 2 / 2 <= 4 /\ 2 / 2 <= 2 /\ 2 + 2 / 2 <= 4 /\
  exists d,
    extract_feature_descriptors (cv := Reference.cv) (Img3D ramp4_px) [(1, 2)] 2 = Ok [d] /\
    nth (Z.to_nat (2 / 2 * 2 + 2 / 2)) d 0
    = entry 0 (to_gray (cv := Reference.cv) ramp4_px) 2 1.
Proof.
  split; [exact ramp4_bgr|]. split; [reflexivity|]. split; [lia|].
  split; [cbn; lia|]. split; [cbn; lia|]. split; [cbn; lia|]. split; [cbn; lia|].
  destruct (descriptor_layout (cv := Reference.cv) ramp4_px 4 4 2 1 2 ramp4_bgr eq_refl)
    as (d & Hrun & _ & _ & Hc); [lia | cbn; lia | cbn; lia | cbn; lia | cbn; lia |].
  exists d. split; assumption.
Defined.



Lemma two_sets_nonempty : [[16; 16]; [0; 0]] <> @nil (list Z).
Proof. discriminate. Defined.


Lemma match_features_length_mismatch_witness :
  uniform 2 [[16; 16]; [0; 0]] /\ uniform 3 [[1; 2; 3]] /\
  match_features (dt := uint8) [[16; 16]; [0; 0]] [[1; 2; 3]] "SSD" = Raise ValueError.
Proof.
  split; [exact uniform2_uint8|]. split; [exact uniform3_uint8|].
  apply (match_features_length_mismatch (dt := uint8) 2 3 "SSD"
           [[16; 16]; [0; 0]] [[1; 2; 3]] uniform2_uint8 uniform3_uint8);
    discriminate.
Defined.

Lemma lowercase_is_not_SSD : "ssd"%string <> "SSD"%string.
Proof. discriminate. Defined.

Lemma match_features_other_method_witness :
  "ssd"%string <> "SSD"%string /\
  match_features (dt := uint8) [[16; 16]; [0; 0]] [[1; 2; 3]] "ssd"
  = match_features (dt := uint8) [[16; 16]; [0; 0]] [[1; 2; 3]] "NCC".
Proof.
  split; [exact lowercase_is_not_SSD|].
  apply (match_features_other_method (dt := uint8) "ssd" _ _ lowercase_is_not_SSD).
Defined.




Lemma ncc_black_patch_unmatched_witness :
  uniform 2 [[16; 16]; [0; 0]] /\
  exists matches,
    match_features (dt := uint8) [[16; 16]; [0; 0]] [[16; 16]; [0; 0]] "NCC" = Ok matches /\
    nth 1 matches (0, None) = (1, None).
Proof.
  split; [exact uniform2_uint8|].
  destruct (ncc_black_patch_unmatched 2 [[16; 16]; [0; 0]] [[16; 16]; [0; 0]]
              uniform2_uint8 uniform2_uint8) as (matches & Hrun & Hz).
  exists matches. split; [assumption|].
  apply (Hz 1%nat); [cbn; lia | repeat constructor].
Defined.

Lemma congruent_mod16 :
  forall d1 d2, In d1 [[16; 16]; [0; 0]] -> In d2 [[16; 16]; [0; 0]] ->
    Forall2 (fun a b => (a - b) mod 16 = 0) d1 d2.
Proof.
  intros d1 d2 [<-|[<-|[]]] [<-|[<-|[]]]; repeat constructor.
Defined.

Lemma ssd_uint8_congruent_descriptors_witness :
  uniform 2 [[16; 16]; [0; 0]] /\ [[16; 16]; [0; 0]] <> @nil (list Z) /\
  match_features (dt := uint8) [[16; 16]; [0; 0]] [[16; 16]; [0; 0]] "SSD"
  = Ok (map (fun i => (i, Some 0)) (Py.range 0 (Z.of_nat (length [[16; 16]; [0; 0]])))).
Proof.
  split; [exact uniform2_uint8|]. split; [exact two_sets_nonempty|].
  apply (ssd_uint8_congruent_descriptors 2 [[16; 16]; [0; 0]] [[16; 16]; [0; 0]]
           uniform2_uint8 uniform2_uint8 two_sets_nonempty congruent_mod16).
Defined.



